(** * Doubly linked lists: a store-passing model of
      [doubly_linked_list.py] (length-tracked) and [linked_list.py]
      (untracked), and the properties of their public operations.

    Python objects are mutable and shared, so [Node] objects live in a
    store (a list of cells, an address is an index into it) and the fields
    [next] / [prev] / [head] / [tail] hold optional addresses.  Methods are
    computations in a state-and-exception monad whose state survives a
    raised exception, as the attributes of a Python object do. *)

From Stdlib Require Import ZArith Lia.
From stdpp Require Import base option list strings.

Open Scope Z_scope.

(** ** Exceptions and the method monad *)

(** [IndexError] carries the message given to the constructor in the source.
    [StoreFault] does not exist in Python: it is what the model answers when
    an address outside the store is dereferenced, which a Python reference
    never is.  It is shown unreachable below. *)
Inductive exn : Type :=
  | IndexError (msg : string)
  | AssertionError
  | StoreFault.

Inductive outcome (A : Type) : Type :=
  | Return (a : A)
  | Raise (e : exn).
Arguments Return {A} a.
Arguments Raise {A} e.

Definition M (S A : Type) : Type := S -> outcome A * S.

#[global] Instance M_ret (S : Type) : MRet (M S) :=
  fun A a s => (Return a, s).

#[global] Instance M_bind (S : Type) : MBind (M S) :=
  fun A B f m s =>
    match m s with
    | (Return a, s') => f a s'
    | (Raise e, s') => (Raise e, s')
    end.

Definition raise {S A : Type} (e : exn) : M S A := fun s => (Raise e, s).
Definition gets {S A : Type} (f : S -> A) : M S A := fun s => (Return (f s), s).
Definition modify {S : Type} (f : S -> S) : M S unit := fun s => (Return tt, f s).

(** ** class Node (the same in both files) *)

(** A reference to a [Node] object: its index in the store. *)
Abbreviation addr := nat (only parsing).

Record Node : Type := mkNode {
  value : Z;
  next : option addr;
  prev : option addr
}.

(** [Node(value)]: both links start as [None]. *)
Definition Node__init__ (v : Z) : Node := mkNode v None None.

(** The store of [Node] objects.  A new object gets the first unused
    address; objects are never removed (Python reclaims unreachable ones,
    which no program can observe through a reference). *)
Abbreviation store := (list Node) (only parsing).

Definition store_alloc (n : Node) (h : store) : addr * store :=
  (List.length h, h ++ [n]).

Definition store_set_next (a : addr) (x : option addr) (h : store) : store :=
  match h !! a with
  | Some n => <[a := mkNode (value n) x (prev n)]> h
  | None => h
  end.

Definition store_set_prev (a : addr) (x : option addr) (h : store) : store :=
  match h !! a with
  | Some n => <[a := mkNode (value n) (next n) x]> h
  | None => h
  end.

(** What a public call hands back to its caller. *)
Inductive answer : Type :=
  | Unit
  | Popped (r : option Z)
  | Got (v : Z)
  | Listed (l : option (list Z)).

(** * doubly_linked_list.py *)

Module DLL.

(** The attributes of a [DoublyLinkedList] object. *)
Record DoublyLinkedList : Type := mkDLL {
  head : option addr;
  tail : option addr;
  length : Z
}.

Record state : Type := mkState {
  heap : store;
  self : DoublyLinkedList
}.

Definition get_head : M state (option addr) := gets (fun w => head (self w)).
Definition get_tail : M state (option addr) := gets (fun w => tail (self w)).
Definition get_length : M state Z := gets (fun w => length (self w)).

Definition set_head (x : option addr) : M state unit :=
  modify (fun w => mkState (heap w) (mkDLL x (tail (self w)) (length (self w)))).
Definition set_tail (x : option addr) : M state unit :=
  modify (fun w => mkState (heap w) (mkDLL (head (self w)) x (length (self w)))).
Definition set_length (x : Z) : M state unit :=
  modify (fun w => mkState (heap w) (mkDLL (head (self w)) (tail (self w)) x)).

(** [Node(value)] evaluated inside a method. *)
Definition new_Node (v : Z) : M state addr :=
  fun w => let (a, h) := store_alloc (Node__init__ v) (heap w) in
           (Return a, mkState h (self w)).

(** Reading the attributes of the node at [a]. *)
Definition load (a : addr) : M state Node :=
  fun w => match heap w !! a with
           | Some n => (Return n, w)
           | None => (Raise StoreFault, w)
           end.

(** [a.next = x] and [a.prev = x]. *)
Definition set_next (a : addr) (x : option addr) : M state unit :=
  _ ← load a; modify (fun w => mkState (store_set_next a x (heap w)) (self w)).
Definition set_prev (a : addr) (x : option addr) : M state unit :=
  _ ← load a; modify (fun w => mkState (store_set_prev a x (heap w)) (self w)).

(** [assert x] on an optional reference: a [Node] defines neither
    [__bool__] nor [__len__], so it is falsy exactly when it is [None]. *)
Definition assert_node (x : option addr) : M state addr :=
  match x with
  | Some a => mret a
  | None => raise AssertionError
  end.

(** [DoublyLinkedList()] *)
Definition __init__ : state := mkState [] (mkDLL None None 0).

Definition append_left (v : Z) : M state unit :=
  new_node ← new_Node v;
  len ← get_length; set_length (len + 1);;
  h ← get_head;
  match h with
  | None =>
      set_tail (Some new_node);;
      set_head (Some new_node)
  | Some hd =>
      set_next new_node (Some hd);;
      set_prev hd (Some new_node);;
      set_head (Some new_node)
  end.

Definition append_right (v : Z) : M state unit :=
  new_node ← new_Node v;
  len ← get_length; set_length (len + 1);;
  t ← get_tail;
  match t with
  | None =>
      set_tail (Some new_node);;
      set_head (Some new_node)
  | Some tl =>
      set_prev new_node (Some tl);;
      set_next tl (Some new_node);;
      set_tail (Some new_node)
  end.

Definition pop_left : M state (option Z) :=
  h ← get_head;
  match h with
  | None => mret None
  | Some hd =>
      n ← load hd;
      let removed_value := value n in
      t ← get_tail;
      if decide (Some hd = t) then
        set_head None;;
        set_tail None;;
        set_length 0;;
        mret (Some removed_value)
      else
        set_head (next n);;
        h' ← get_head;
        hd' ← assert_node h';
        set_prev hd' None;;
        len ← get_length; set_length (len - 1);;
        mret (Some removed_value)
  end.

Definition pop_right : M state (option Z) :=
  t ← get_tail;
  match t with
  | None => mret None
  | Some tl =>
      n ← load tl;
      let removed_value := value n in
      h ← get_head;
      if decide (h = Some tl) then
        set_head None;;
        set_tail None;;
        set_length 0;;
        mret (Some removed_value)
      else
        set_tail (prev n);;
        t' ← get_tail;
        tl' ← assert_node t';
        set_next tl' None;;
        len ← get_length; set_length (len - 1);;
        mret (Some removed_value)
  end.

(** [for _ in range(n): assert current; current = current.next] *)
Fixpoint walk_next (n : nat) (current : option addr) : M state (option addr) :=
  match n with
  | O => mret current
  | S n' =>
      a ← assert_node current;
      nd ← load a;
      walk_next n' (next nd)
  end.

(** [for _ in range(n): assert current; current = current.prev] *)
Fixpoint walk_prev (n : nat) (current : option addr) : M state (option addr) :=
  match n with
  | O => mret current
  | S n' =>
      a ← assert_node current;
      nd ← load a;
      walk_prev n' (prev nd)
  end.

(** The two traversals of [get].  [range(k)] runs [max k 0] times, which
    is [Z.to_nat k]. *)
Definition get_forward (index : Z) : M state Z :=
  h ← get_head;
  current ← walk_next (Z.to_nat index) h;
  a ← assert_node current;
  nd ← load a;
  mret (value nd).

Definition get_backward (index : Z) : M state Z :=
  len ← get_length;
  t ← get_tail;
  current ← walk_prev (Z.to_nat (len - index - 1)) t;
  a ← assert_node current;
  nd ← load a;
  mret (value nd).

(** [//] by the positive divisor 2 is [Z.div]. *)
Definition get (index : Z) : M state Z :=
  len ← get_length;
  if (index <? 0) || (index >=? len) then
    raise (IndexError "Index out of range")
  else if index <? len `div` 2 then
    get_forward index
  else
    get_backward index.

(** One resumption of the generator returned by [__iter__], whose only
    local is [current]: [None] when the [while] loop ends, otherwise the
    yielded value and the next [current]. *)
Definition iter_resume (current : option addr) : M state (option (Z * option addr)) :=
  match current with
  | None => mret None
  | Some a => nd ← load a; mret (Some (value nd, next nd))
  end.

(** Draining the generator, as [list(dll)] does.  The [while] loop has no
    bound in the source, so the model takes fuel: the answer is [None] when
    the fuel ends before the loop does. *)
Fixpoint drain (fuel : nat) (current : option addr) : M state (option (list Z)) :=
  match fuel with
  | O => mret None
  | S fuel' =>
      r ← iter_resume current;
      match r with
      | None => mret (Some [])
      | Some (v, current') =>
          rest ← drain fuel' current';
          mret (cons v <$> rest)
      end
  end.

Definition __iter__ (fuel : nat) : M state (option (list Z)) :=
  h ← get_head; drain fuel h.

Definition __len__ : M state Z := get_length.

(** ** Public calls, and the states a caller can reach *)

Inductive call : Type :=
  | AppendLeft (v : Z)
  | AppendRight (v : Z)
  | PopLeft
  | PopRight
  | Get (index : Z)
  | Iterate (fuel : nat).

Definition run (c : call) : M state answer :=
  match c with
  | AppendLeft v => append_left v;; mret Unit
  | AppendRight v => append_right v;; mret Unit
  | PopLeft => r ← pop_left; mret (Popped r)
  | PopRight => r ← pop_right; mret (Popped r)
  | Get index => v ← get index; mret (Got v)
  | Iterate fuel => l ← __iter__ fuel; mret (Listed l)
  end.

(** The state a call leaves behind, whether it returned or raised. *)
Definition exec (c : call) (w : state) : state := snd (run c w).

Definition run_calls (cs : list call) (w : state) : state :=
  fold_left (fun w c => exec c w) cs w.

(** What a caller sees of a sequence of calls: the outcome of each one, an
    exception being caught and the next call made on the state it left. *)
Fixpoint observe (cs : list call) (w : state) : list (outcome answer) :=
  match cs with
  | [] => []
  | c :: cs' => let (r, w') := run c w in r :: observe cs' w'
  end.

Inductive reachable : state -> Prop :=
  | reachable_init : reachable __init__
  | reachable_step w c : reachable w -> reachable (exec c w).

(** The list built by the source's [__main__] block. *)
Definition demo_calls : list call :=
  [AppendRight 1; AppendRight 2; AppendRight 3; AppendLeft 0; AppendLeft (-1)].

Definition demo_state : state := run_calls demo_calls __init__.

(** ** Representation: the chain of live nodes *)

(** The [prev] link the node at position [i] of the chain [ls] must hold. *)
Definition prev_link (ls : list addr) (i : nat) : option addr :=
  match i with
  | O => None
  | S j => ls !! j
  end.

(** [repr w ls vs]: the list object of [w] is the chain of distinct nodes
    [ls], in order from head to tail, carrying the values [vs]. *)
Record repr (w : state) (ls : list addr) (vs : list Z) : Prop := mkRepr {
  repr_nodup : NoDup ls;
  repr_values : List.length vs = List.length ls;
  repr_cell : forall i a, ls !! i = Some a ->
    exists v, vs !! i = Some v /\
              heap w !! a = Some (mkNode v (ls !! S i) (prev_link ls i));
  repr_head : head (self w) = ls !! 0%nat;
  repr_tail : tail (self w) = last ls;
  repr_length : length (self w) = Z.of_nat (List.length ls)
}.

(** ** The walks themselves, outside any method *)

(** The reference reached from [current] after [n] steps along [next];
    [None] once the chain has ended. *)
Fixpoint follow_next (h : store) (n : nat) (current : option addr) : option addr :=
  match n with
  | O => current
  | S n' => follow_next h n' (current ≫= fun a => h !! a ≫= next)
  end.

(** A node is live when the walk from [head] along [next] meets it. *)
Definition live (w : state) (b : addr) : Prop :=
  exists k, follow_next (heap w) k (head (self w)) = Some b.

(** ** The invariant of the specification *)

(** [head] is absent iff [tail] is absent iff [length == 0], and [length]
    is the number of values a full iteration yields, which is the number of
    steps along [next] from [head] before the chain ends. *)
Definition invariant (w : state) : Prop :=
  (head (self w) = None <-> tail (self w) = None) /\
  (tail (self w) = None <-> length (self w) = 0) /\
  exists vs : list Z,
    length (self w) = Z.of_nat (List.length vs) /\
    (forall fuel, (List.length vs < fuel)%nat ->
       __iter__ fuel w = (Return (Some vs), w)) /\
    (forall k, (k < List.length vs)%nat ->
       is_Some (follow_next (heap w) k (head (self w)))) /\
    follow_next (heap w) (List.length vs) (head (self w)) = None.

(** Sequences of appends and pops, for the round-trip properties. *)
Fixpoint appends_left (xs : list Z) : M state unit :=
  match xs with
  | [] => mret tt
  | x :: xs' => append_left x;; appends_left xs'
  end.

Fixpoint appends_right (xs : list Z) : M state unit :=
  match xs with
  | [] => mret tt
  | x :: xs' => append_right x;; appends_right xs'
  end.

Fixpoint pops_left (n : nat) : M state (list (option Z)) :=
  match n with
  | O => mret []
  | S n' => r ← pop_left; rs ← pops_left n'; mret (r :: rs)
  end.

Fixpoint pops_right (n : nat) : M state (list (option Z)) :=
  match n with
  | O => mret []
  | S n' => r ← pop_right; rs ← pops_right n'; mret (r :: rs)
  end.

(** [list(dll)], as the [__main__] block takes it: the generator drained
    to its end.  A chain of distinct nodes is no longer than the store, so
    this fuel is enough for it. *)
Definition to_list (w : state) : option (list Z) :=
  match __iter__ (S (List.length (heap w))) w with
  | (Return l, _) => l
  | (Raise _, _) => None
  end.

End DLL.



(** * linked_list.py *)

Module LL.

(** The attributes of a [DoublyLinkedList] object: no [length] here. *)
Record DoublyLinkedList : Type := mkLL {
  head : option addr;
  tail : option addr
}.

Record state : Type := mkState {
  heap : store;
  self : DoublyLinkedList
}.

Definition get_head : M state (option addr) := gets (fun w => head (self w)).
Definition get_tail : M state (option addr) := gets (fun w => tail (self w)).

Definition set_head (x : option addr) : M state unit :=
  modify (fun w => mkState (heap w) (mkLL x (tail (self w)))).
Definition set_tail (x : option addr) : M state unit :=
  modify (fun w => mkState (heap w) (mkLL (head (self w)) x)).

Definition new_Node (v : Z) : M state addr :=
  fun w => let (a, h) := store_alloc (Node__init__ v) (heap w) in
           (Return a, mkState h (self w)).

Definition load (a : addr) : M state Node :=
  fun w => match heap w !! a with
           | Some n => (Return n, w)
           | None => (Raise StoreFault, w)
           end.

Definition set_next (a : addr) (x : option addr) : M state unit :=
  _ ← load a; modify (fun w => mkState (store_set_next a x (heap w)) (self w)).
Definition set_prev (a : addr) (x : option addr) : M state unit :=
  _ ← load a; modify (fun w => mkState (store_set_prev a x (heap w)) (self w)).

Definition assert_node (x : option addr) : M state addr :=
  match x with
  | Some a => mret a
  | None => raise AssertionError
  end.

(** [DoublyLinkedList()] *)
Definition __init__ : state := mkState [] (mkLL None None).

Definition append_left (v : Z) : M state unit :=
  new_node ← new_Node v;
  h ← get_head;
  match h with
  | None =>
      set_tail (Some new_node);;
      set_head (Some new_node)
  | Some hd =>
      set_next new_node (Some hd);;
      set_prev hd (Some new_node);;
      set_head (Some new_node)
  end.

Definition append_right (v : Z) : M state unit :=
  new_node ← new_Node v;
  t ← get_tail;
  match t with
  | None =>
      set_tail (Some new_node);;
      set_head (Some new_node)
  | Some tl =>
      set_prev new_node (Some tl);;
      set_next tl (Some new_node);;
      set_tail (Some new_node)
  end.

Definition pop_left : M state (option Z) :=
  h ← get_head;
  match h with
  | None => mret None
  | Some hd =>
      n ← load hd;
      let removed_value := value n in
      t ← get_tail;
      if decide (Some hd = t) then
        set_head None;;
        set_tail None;;
        mret (Some removed_value)
      else
        set_head (next n);;
        h' ← get_head;
        hd' ← assert_node h';
        set_prev hd' None;;
        mret (Some removed_value)
  end.

Definition pop_right : M state (option Z) :=
  t ← get_tail;
  match t with
  | None => mret None
  | Some tl =>
      n ← load tl;
      let removed_value := value n in
      h ← get_head;
      if decide (h = Some tl) then
        set_head None;;
        set_tail None;;
        mret (Some removed_value)
      else
        set_tail (prev n);;
        t' ← get_tail;
        tl' ← assert_node t';
        set_next tl' None;;
        mret (Some removed_value)
  end.

Definition iter_resume (current : option addr) : M state (option (Z * option addr)) :=
  match current with
  | None => mret None
  | Some a => nd ← load a; mret (Some (value nd, next nd))
  end.

Fixpoint drain (fuel : nat) (current : option addr) : M state (option (list Z)) :=
  match fuel with
  | O => mret None
  | S fuel' =>
      r ← iter_resume current;
      match r with
      | None => mret (Some [])
      | Some (v, current') =>
          rest ← drain fuel' current';
          mret (cons v <$> rest)
      end
  end.

Definition __iter__ (fuel : nat) : M state (option (list Z)) :=
  h ← get_head; drain fuel h.

(** The public calls of this variant: there is no [get]. *)
Inductive call : Type :=
  | AppendLeft (v : Z)
  | AppendRight (v : Z)
  | PopLeft
  | PopRight
  | Iterate (fuel : nat).

Definition run (c : call) : M state answer :=
  match c with
  | AppendLeft v => append_left v;; mret Unit
  | AppendRight v => append_right v;; mret Unit
  | PopLeft => r ← pop_left; mret (Popped r)
  | PopRight => r ← pop_right; mret (Popped r)
  | Iterate fuel => l ← __iter__ fuel; mret (Listed l)
  end.

Definition exec (c : call) (w : state) : state := snd (run c w).

Definition run_calls (cs : list call) (w : state) : state :=
  fold_left (fun w c => exec c w) cs w.

Fixpoint observe (cs : list call) (w : state) : list (outcome answer) :=
  match cs with
  | [] => []
  | c :: cs' => let (r, w') := run c w in r :: observe cs' w'
  end.

Inductive reachable : state -> Prop :=
  | reach_init : reachable __init__
  | reach_step w c : reachable w -> reachable (exec c w).

(** [list(dll)], as for the tracked variant. *)
Definition to_list (w : state) : option (list Z) :=
  match __iter__ (S (List.length (heap w))) w with
  | (Return l, _) => l
  | (Raise _, _) => None
  end.

End LL.

(** * Relating the two variants *)

(** The untracked list a tracked one is, once [length] is dropped. *)
Definition forget (w : DLL.state) : LL.state :=
  LL.mkState (DLL.heap w) (LL.mkLL (DLL.head (DLL.self w)) (DLL.tail (DLL.self w))).

(** The same call, made on the tracked variant. *)
Definition tracked (c : LL.call) : DLL.call :=
  match c with
  | LL.AppendLeft v => DLL.AppendLeft v
  | LL.AppendRight v => DLL.AppendRight v
  | LL.PopLeft => DLL.PopLeft
  | LL.PopRight => DLL.PopRight
  | LL.Iterate fuel => DLL.Iterate fuel
  end.

(** [agree m m']: from related states, the method [m] of the untracked
    variant and the method [m'] of the tracked one give the same outcome
    and leave related states. *)
Definition agree {A : Type} (m : M LL.state A) (m' : M DLL.state A) : Prop :=
  forall w, m (forget w) = (fst (m' w), forget (snd (m' w))).

(** ** What a call may do to the store *)

(** [same_values h h']: the store [h'] has the nodes of [h] and no others,
    each with the value it had; only links may differ. *)
Definition same_values (h h' : store) : Prop :=
  List.length h' = List.length h /\
  forall a n, h !! a = Some n -> exists n', h' !! a = Some n' /\ value n' = value n.

(** ** The sequence of values the docstrings speak of *)

(** The list as a plain sequence: [append_left] adds at the beginning,
    [append_right] at the end, the pops remove and return the first or the
    last value or return [None], [get] reads a position or raises
    [IndexError], and iteration yields the values from first to last. *)
Module Model.

Definition run (c : DLL.call) (vs : list Z) : outcome answer * list Z :=
  match c with
  | DLL.AppendLeft v => (Return Unit, v :: vs)
  | DLL.AppendRight v => (Return Unit, vs ++ [v])
  | DLL.PopLeft => (Return (Popped (vs !! 0%nat)), drop 1 vs)
  | DLL.PopRight => (Return (Popped (last vs)), removelast vs)
  | DLL.Get index =>
      (match (if index <? 0 then None else vs !! Z.to_nat index) with
       | Some v => Return (Got v)
       | None => Raise (IndexError "Index out of range")
       end, vs)
  | DLL.Iterate fuel =>
      (Return (Listed (if decide (List.length vs < fuel)%nat then Some vs else None)), vs)
  end.

Fixpoint observe (cs : list DLL.call) (vs : list Z) : list (outcome answer) :=
  match cs with
  | [] => []
  | c :: cs' => let (r, vs') := run c vs in r :: observe cs' vs'
  end.

End Model.

(** * Facts about the store *)

Lemma lookup_store_set_next (h : store) a x b :
  store_set_next a x h !! b =
  if decide (a = b) then (fun n => mkNode (value n) x (prev n)) <$> h !! b
  else h !! b.
Proof.
  unfold store_set_next. case_decide as Hab.
  - subst b. destruct (h !! a) as [n|] eqn:Hn; simpl.
    + apply list_lookup_insert_eq. eapply lookup_lt_Some; eauto.
    + exact Hn.
  - destruct (h !! a); [apply list_lookup_insert_ne; exact Hab | reflexivity].
Qed.

Lemma lookup_store_set_prev (h : store) a x b :
  store_set_prev a x h !! b =
  if decide (a = b) then (fun n => mkNode (value n) (next n) x) <$> h !! b
  else h !! b.
Proof.
  unfold store_set_prev. case_decide as Hab.
  - subst b. destruct (h !! a) as [n|] eqn:Hn; simpl.
    + apply list_lookup_insert_eq. eapply lookup_lt_Some; eauto.
    + exact Hn.
  - destruct (h !! a); [apply list_lookup_insert_ne; exact Hab | reflexivity].
Qed.

Lemma length_store_set_next (h : store) a x :
  List.length (store_set_next a x h) = List.length h.
Proof. unfold store_set_next. destruct (h !! a); [apply length_insert | reflexivity]. Qed.

Lemma length_store_set_prev (h : store) a x :
  List.length (store_set_prev a x h) = List.length h.
Proof. unfold store_set_prev. destruct (h !! a); [apply length_insert | reflexivity]. Qed.

(** * doubly_linked_list.py: the operations on a represented chain *)

Module DLLProps.
Import DLL.

Ltac mrun :=
  cbv [mbind M_bind mret M_ret gets modify raise get_head get_tail get_length
       set_head set_tail set_length new_Node store_alloc load set_next set_prev
       assert_node Node__init__];
  cbn [heap self head tail length value next prev fst snd].

Ltac mred := cbn [heap self head tail length value next prev fst snd].

Lemma repr_bound w ls vs a :
  repr w ls vs -> a ∈ ls -> (a < List.length (heap w))%nat.
Proof.
  intros R Ha. apply list_elem_of_lookup in Ha as [i Hi].
  destruct (repr_cell _ _ _ R i a Hi) as (v & _ & Hc).
  eapply lookup_lt_Some; eauto.
Qed.

Lemma repr_init : repr __init__ [] [].
Proof.
  split; try reflexivity.
  - constructor.
  - intros i a Hi. destruct i; discriminate.
Qed.

Lemma prev_link_snoc (ls : list addr) a i :
  (i <= List.length ls)%nat -> prev_link (ls ++ [a]) i = prev_link ls i.
Proof.
  destruct i as [|j]; simpl; [reflexivity|].
  intros Hj. apply lookup_app_l. lia.
Qed.

Lemma append_left_repr w ls vs v :
  repr w ls vs ->
  exists w', append_left v w = (Return tt, w') /\
             repr w' (List.length (heap w) :: ls) (v :: vs).
Proof.
  intros R. unfold append_left. mrun.
  pose proof (repr_head _ _ _ R) as Hh.
  assert (Hfresh : List.length (heap w) ∉ ls).
  { intros Hin. apply (repr_bound _ _ _ _ R) in Hin. lia. }
  destruct ls as [|hd ls']; simpl in Hh; rewrite Hh; mred.
  - eexists; split; [reflexivity|].
    split; cbn [heap self head tail length].
    + apply NoDup_singleton.
    + simpl. f_equal. apply (repr_values _ _ _ R).
    + intros [|i] a Hi; simplify_eq/=.
      exists v. split; [reflexivity|]. apply list_lookup_middle. reflexivity.
    + reflexivity.
    + reflexivity.
    + rewrite (repr_length _ _ _ R). simpl. lia.
  - destruct (repr_cell _ _ _ R 0%nat hd eq_refl) as (v0 & Hv0 & Hhd).
    assert (Hlt : (hd < List.length (heap w))%nat) by (eapply lookup_lt_Some; eauto).
    rewrite list_lookup_middle by reflexivity. mred.
    rewrite lookup_store_set_next.
    rewrite decide_False by lia.
    rewrite lookup_app_l by lia. rewrite Hhd. mred.
    eexists; split; [reflexivity|].
    split; cbn [heap self head tail length].
    + apply NoDup_cons. split; [exact Hfresh | apply (repr_nodup _ _ _ R)].
    + simpl. f_equal. apply (repr_values _ _ _ R).
    + intros [|i] a Hi.
      * simplify_eq/=. exists v. split; [reflexivity|].
        rewrite lookup_store_set_prev, decide_False by lia.
        rewrite lookup_store_set_next, decide_True by reflexivity.
        rewrite list_lookup_middle by reflexivity. reflexivity.
      * cbn [lookup list_lookup] in Hi.
        destruct (repr_cell _ _ _ R i a Hi) as (vi & Hvi & Ha).
        assert (Halt : (a < List.length (heap w))%nat) by (eapply lookup_lt_Some; eauto).
        exists vi. split; [exact Hvi|].
        rewrite lookup_store_set_prev, lookup_store_set_next.
        rewrite (decide_False (P := List.length (heap w) = a)) by lia.
        rewrite lookup_app_l by lia. rewrite Ha.
        case_decide as Hhda.
        -- subst a.
           assert (i = 0%nat) as ->
             by (eapply NoDup_lookup; [apply (repr_nodup _ _ _ R) | exact Hi | reflexivity]).
           reflexivity.
        -- destruct i as [|j]; [simplify_eq/=|]. reflexivity.
    + reflexivity.
    + simpl. apply (repr_tail _ _ _ R).
    + rewrite (repr_length _ _ _ R). cbn [List.length]. lia.
Qed.

Lemma append_right_repr w ls vs v :
  repr w ls vs ->
  exists w', append_right v w = (Return tt, w') /\
             repr w' (ls ++ [List.length (heap w)]) (vs ++ [v]).
Proof.
  intros R. unfold append_right. mrun.
  rewrite (repr_tail _ _ _ R).
  assert (Hfresh : List.length (heap w) ∉ ls).
  { intros Hin. apply (repr_bound _ _ _ _ R) in Hin. lia. }
  pose proof (repr_values _ _ _ R) as Hlen.
  destruct (last ls) as [tl|] eqn:Hlast; mred.
  - pose proof Hlast as Hl. rewrite last_lookup in Hl.
    destruct (repr_cell _ _ _ R _ tl Hl) as (v0 & Hv0 & Htl).
    assert (Hlt : (tl < List.length (heap w))%nat) by (eapply lookup_lt_Some; eauto).
    assert (Hpos : (0 < List.length ls)%nat).
    { destruct ls; [discriminate | simpl; lia]. }
    rewrite list_lookup_middle by reflexivity. mred.
    rewrite lookup_store_set_prev.
    rewrite decide_False by lia.
    rewrite lookup_app_l by lia. rewrite Htl. mred.
    eexists; split; [reflexivity|].
    split; cbn [heap self head tail length].
    + apply NoDup_app. split; [apply (repr_nodup _ _ _ R)|]. split.
      * intros x Hx Hx'. apply list_elem_of_singleton in Hx'. subst x. auto.
      * apply NoDup_singleton.
    + rewrite !length_app. simpl. lia.
    + intros i a Hi.
      destruct (decide (i < List.length ls)%nat) as [Hi'|Hi'].
      * rewrite lookup_app_l in Hi by exact Hi'.
        destruct (repr_cell _ _ _ R i a Hi) as (vi & Hvi & Ha).
        assert (Halt : (a < List.length (heap w))%nat) by (eapply lookup_lt_Some; eauto).
        exists vi. split; [rewrite lookup_app_l by lia; exact Hvi|].
        rewrite lookup_store_set_next, lookup_store_set_prev.
        rewrite (decide_False (P := List.length (heap w) = a)) by lia.
        rewrite lookup_app_l by lia. rewrite Ha.
        rewrite prev_link_snoc by lia.
        case_decide as Htla.
        -- subst a.
           assert (i = pred (List.length ls)) as ->
             by (eapply NoDup_lookup; [apply (repr_nodup _ _ _ R) | exact Hi | exact Hl]).
           simpl. do 2 f_equal.
           replace (S (pred (List.length ls))) with (List.length ls) by lia.
           rewrite list_lookup_middle by reflexivity. reflexivity.
        -- assert (i <> pred (List.length ls)) by (intros ->; congruence).
           rewrite (lookup_app_l ls) by lia. reflexivity.
      * assert (i = List.length ls) as ->.
        { apply lookup_lt_Some in Hi. rewrite length_app in Hi. simpl in Hi. lia. }
        rewrite list_lookup_middle in Hi by reflexivity. simplify_eq.
        exists v. split; [apply list_lookup_middle; lia|].
        rewrite lookup_store_set_next, decide_False by lia.
        rewrite lookup_store_set_prev, decide_True by reflexivity.
        rewrite list_lookup_middle by reflexivity. simpl.
        rewrite (lookup_ge_None_2 (ls ++ _)) by (rewrite length_app; simpl; lia).
        do 2 f_equal.
        rewrite prev_link_snoc by lia. rewrite <- Hl.
        destruct (List.length ls); [lia | reflexivity].
    + rewrite (repr_head _ _ _ R). symmetry. apply lookup_app_l. lia.
    + symmetry. apply last_snoc.
    + rewrite (repr_length _ _ _ R), length_app. simpl. lia.
  - apply last_None in Hlast. subst ls.
    destruct vs; [|discriminate].
    eexists; split; [reflexivity|].
    split; cbn [heap self head tail length app].
    + apply NoDup_singleton.
    + reflexivity.
    + intros [|i] a Hi; simplify_eq/=.
      exists v. split; [reflexivity|]. apply list_lookup_middle. reflexivity.
    + reflexivity.
    + reflexivity.
    + rewrite (repr_length _ _ _ R). simpl. lia.
Qed.

Lemma pop_left_nil w vs :
  repr w [] vs -> pop_left w = (Return None, w).
Proof.
  intros R. unfold pop_left. mrun.
  pose proof (repr_head _ _ _ R) as Hh. simpl in Hh. rewrite Hh. reflexivity.
Qed.

Lemma pop_right_nil w vs :
  repr w [] vs -> pop_right w = (Return None, w).
Proof.
  intros R. unfold pop_right. mrun.
  pose proof (repr_tail _ _ _ R) as Ht. simpl in Ht. rewrite Ht. reflexivity.
Qed.

Lemma pop_left_cons w a ls v vs :
  repr w (a :: ls) (v :: vs) ->
  exists w', pop_left w = (Return (Some v), w') /\
             repr w' ls vs /\
             heap w' !! a = Some (mkNode v (ls !! 0%nat) None).
Proof.
  intros R. unfold pop_left. mrun.
  pose proof (repr_head _ _ _ R) as Hh. simpl in Hh. rewrite Hh. mred.
  destruct (repr_cell _ _ _ R 0%nat a eq_refl) as (v' & Hv' & Ha).
  simpl in Hv', Ha. simplify_eq. rewrite Ha. mred.
  pose proof (repr_nodup _ _ _ R) as Hnd. apply NoDup_cons in Hnd as [Hnotin Hnd].
  pose proof (repr_values _ _ _ R) as Hlen. simpl in Hlen.
  pose proof (repr_tail _ _ _ R) as Ht.
  destruct ls as [|b ls'].
  - simpl in Ht. rewrite Ht. rewrite decide_True by reflexivity. mred.
    destruct vs; [|discriminate].
    eexists; split; [reflexivity|]. split; [|exact Ha].
    split; mred; try reflexivity.
    + constructor.
    + intros i c Hi. destruct i; discriminate.
  - rewrite last_cons_cons in Ht. rewrite Ht.
    rewrite decide_False.
    2:{ intros Heq. symmetry in Heq. apply last_Some_elem_of in Heq. auto. }
    change ((b :: ls') !! 0%nat) with (Some b) in *. mred.
    destruct (repr_cell _ _ _ R 1%nat b eq_refl) as (vb & Hvb & Hb).
    rewrite Hb. mred.
    eexists; split; [reflexivity|]. split.
    + split; mred.
      * exact Hnd.
      * lia.
      * intros i c Hi.
        destruct (repr_cell _ _ _ R (S i) c Hi) as (vi & Hvi & Hc).
        exists vi. split; [exact Hvi|].
        rewrite lookup_store_set_prev, Hc.
        case_decide as Hbc.
        -- subst c.
           assert (i = 0%nat) as -> by (eapply NoDup_lookup; [exact Hnd | exact Hi | reflexivity]).
           reflexivity.
        -- destruct i as [|j]; [simplify_eq/=|]. reflexivity.
      * reflexivity.
      * exact Ht.
      * rewrite (repr_length _ _ _ R). cbn [List.length]. lia.
    + mred. rewrite lookup_store_set_prev, decide_False.
      * exact Ha.
      * intros ->. apply Hnotin. left.
Qed.

Lemma pop_right_snoc w a ls v vs :
  repr w (ls ++ [a]) (vs ++ [v]) ->
  exists w', pop_right w = (Return (Some v), w') /\
             repr w' ls vs /\
             heap w' !! a = Some (mkNode v None (last ls)).
Proof.
  intros R. unfold pop_right. mrun.
  pose proof (repr_tail _ _ _ R) as Ht. rewrite last_snoc in Ht. rewrite Ht. mred.
  pose proof (repr_values _ _ _ R) as Hlen. rewrite !length_app in Hlen. simpl in Hlen.
  assert (Hlen' : List.length vs = List.length ls) by lia.
  pose proof (repr_nodup _ _ _ R) as Hnd.
  apply NoDup_app in Hnd as (Hnd & Hnotin & _).
  assert (Hnotin' : a ∉ ls).
  { intros Hin. apply (Hnotin a Hin). left. }
  destruct (repr_cell _ _ _ R (List.length ls) a) as (v' & Hv' & Ha).
  { apply list_lookup_middle. reflexivity. }
  rewrite list_lookup_middle in Hv' by lia. simplify_eq.
  rewrite (lookup_ge_None_2 (ls ++ _)) in Ha by (rewrite length_app; simpl; lia).
  rewrite prev_link_snoc in Ha by lia.
  assert (Hprev : prev_link ls (List.length ls) = last ls).
  { rewrite last_lookup. destruct ls; reflexivity. }
  rewrite Hprev in Ha. rewrite Ha. mred.
  pose proof (repr_head _ _ _ R) as Hh.
  destruct (last ls) as [tl|] eqn:Hlast.
  - pose proof Hlast as Hl. rewrite last_lookup in Hl.
    assert (Hpos : (0 < List.length ls)%nat).
    { destruct ls; [discriminate | simpl; lia]. }
    rewrite lookup_app_l in Hh by lia.
    rewrite Hh. rewrite decide_False.
    2:{ intros Heq. apply Hnotin'. apply list_elem_of_lookup. eauto. }
    mred.
    destruct (repr_cell _ _ _ R (pred (List.length ls)) tl) as (vt & Hvt & Htl).
    { rewrite lookup_app_l by lia. exact Hl. }
    rewrite Htl. mred.
    eexists; split; [reflexivity|]. split.
    + split; mred.
      * exact Hnd.
      * exact Hlen'.
      * intros i c Hi.
        assert (Hi' : (i < List.length ls)%nat) by (eapply lookup_lt_Some; eauto).
        destruct (repr_cell _ _ _ R i c) as (vi & Hvi & Hc).
        { rewrite lookup_app_l by lia. exact Hi. }
        rewrite lookup_app_l in Hvi by lia.
        rewrite prev_link_snoc in Hc by lia.
        exists vi. split; [exact Hvi|].
        rewrite lookup_store_set_next, Hc.
        case_decide as Htc.
        -- subst c.
           assert (i = pred (List.length ls)) as ->
             by (eapply NoDup_lookup; [exact Hnd | exact Hi | exact Hl]).
           simpl. do 2 f_equal. symmetry. apply lookup_ge_None_2. lia.
        -- assert (i <> pred (List.length ls)) by (intros ->; congruence).
           rewrite (lookup_app_l ls) by lia. reflexivity.
      * exact Hh.
      * symmetry. exact Hlast.
      * rewrite (repr_length _ _ _ R), length_app. simpl. lia.
    + mred. rewrite lookup_store_set_next, decide_False.
      * exact Ha.
      * intros ->. apply Hnotin'. apply list_elem_of_lookup. eauto.
  - apply last_None in Hlast. subst ls. simpl in Hh. rewrite Hh.
    rewrite decide_True by reflexivity. mred.
    destruct vs; [|discriminate].
    eexists; split; [reflexivity|]. split; [|exact Ha].
    split; mred; try reflexivity.
    + constructor.
    + intros i c Hi. destruct i; discriminate.
Qed.

(** ** Reading operations leave the state alone *)

Lemma walk_next_state n current w : snd (walk_next n current w) = w.
Proof.
  revert current. induction n as [|n IH]; intros current; [reflexivity|].
  simpl. mrun. destruct current as [a|]; [|reflexivity].
  destruct (heap w !! a) as [nd|]; [apply IH | reflexivity].
Qed.

Lemma walk_prev_state n current w : snd (walk_prev n current w) = w.
Proof.
  revert current. induction n as [|n IH]; intros current; [reflexivity|].
  simpl. mrun. destruct current as [a|]; [|reflexivity].
  destruct (heap w !! a) as [nd|]; [apply IH | reflexivity].
Qed.

Lemma get_forward_state index w : snd (get_forward index w) = w.
Proof.
  unfold get_forward. mrun.
  pose proof (walk_next_state (Z.to_nat index) (head (self w)) w) as Hs.
  destruct (walk_next _ _ w) as [[[a|]|e] w']; simpl in Hs; subst w'; try reflexivity.
  destruct (heap w !! a); reflexivity.
Qed.

Lemma get_backward_state index w : snd (get_backward index w) = w.
Proof.
  unfold get_backward. mrun.
  pose proof (walk_prev_state (Z.to_nat (length (self w) - index - 1))
                (tail (self w)) w) as Hs.
  destruct (walk_prev _ _ w) as [[[a|]|e] w']; simpl in Hs; subst w'; try reflexivity.
  destruct (heap w !! a); reflexivity.
Qed.

Lemma get_state index w : snd (get index w) = w.
Proof.
  unfold get. mrun.
  destruct ((index <? 0) || (index >=? length (self w))); [reflexivity|].
  destruct (index <? length (self w) `div` 2);
    [apply get_forward_state | apply get_backward_state].
Qed.

Lemma drain_state fuel current w : snd (drain fuel current w) = w.
Proof.
  revert current. induction fuel as [|fuel IH]; intros current; [reflexivity|].
  simpl. unfold iter_resume. mrun. destruct current as [a|]; [|reflexivity].
  destruct (heap w !! a) as [nd|]; [|reflexivity].
  specialize (IH (next nd)).
  destruct (drain fuel (next nd) w) as [[r|e] w']; simpl in IH; subst w'; reflexivity.
Qed.

Lemma iter_state fuel w : snd (__iter__ fuel w) = w.
Proof. unfold __iter__. mrun. apply drain_state. Qed.

(** ** Walks along a represented chain *)

Lemma walk_next_repr w ls vs n i :
  repr w ls vs -> (i + n <= List.length ls)%nat ->
  walk_next n (ls !! i) w = (Return (ls !! (i + n)%nat), w).
Proof.
  intros R. revert i. induction n as [|n IH]; intros i Hi.
  - simpl. rewrite Nat.add_0_r. reflexivity.
  - destruct (lookup_lt_is_Some_2 ls i) as [a Ha]; [lia|].
    destruct (repr_cell _ _ _ R i a Ha) as (v & _ & Hc).
    simpl. mrun. rewrite Ha. mred. rewrite Hc. mred.
    rewrite IH by lia. do 3 f_equal. lia.
Qed.

Lemma walk_prev_repr w ls vs n i :
  repr w ls vs -> (n <= i < List.length ls)%nat ->
  walk_prev n (ls !! i) w = (Return (ls !! (i - n)%nat), w).
Proof.
  intros R. revert i. induction n as [|n IH]; intros i Hi.
  - simpl. rewrite Nat.sub_0_r. reflexivity.
  - destruct (lookup_lt_is_Some_2 ls i) as [a Ha]; [lia|].
    destruct (repr_cell _ _ _ R i a Ha) as (v & _ & Hc).
    simpl. mrun. rewrite Ha. mred. rewrite Hc. mred.
    destruct i as [|j]; [lia|]. cbn [prev_link].
    rewrite IH by lia. do 3 f_equal.
Qed.

Lemma follow_next_repr w ls vs n i :
  repr w ls vs -> follow_next (heap w) n (ls !! i) = ls !! (i + n)%nat.
Proof.
  intros R. revert i. induction n as [|n IH]; intros i.
  - simpl. rewrite Nat.add_0_r. reflexivity.
  - simpl. replace (i + S n)%nat with (S i + n)%nat by lia. rewrite <- IH. f_equal.
    destruct (ls !! i) as [a|] eqn:Ha.
    + destruct (repr_cell _ _ _ R i a Ha) as (v & _ & Hc).
      simpl. rewrite Hc. reflexivity.
    + simpl. symmetry. apply lookup_ge_None. apply lookup_ge_None in Ha. lia.
Qed.

Lemma drain_repr w ls vs fuel i :
  repr w ls vs -> (List.length ls - i < fuel)%nat ->
  drain fuel (ls !! i) w = (Return (Some (drop i vs)), w).
Proof.
  intros R. revert i. induction fuel as [|fuel IH]; intros i Hi; [lia|].
  pose proof (repr_values _ _ _ R) as Hlen.
  simpl. unfold iter_resume. mrun.
  destruct (ls !! i) as [a|] eqn:Ha.
  - destruct (repr_cell _ _ _ R i a Ha) as (v & Hv & Hc).
    rewrite Hc. mred. apply lookup_lt_Some in Ha.
    rewrite IH by lia. mred. simpl.
    rewrite (drop_S vs v i Hv). reflexivity.
  - apply lookup_ge_None in Ha. rewrite drop_ge by lia. reflexivity.
Qed.

Lemma drain_short w ls vs fuel i :
  repr w ls vs -> (fuel <= List.length ls - i)%nat ->
  drain fuel (ls !! i) w = (Return None, w).
Proof.
  intros R. revert i. induction fuel as [|fuel IH]; intros i Hi; [reflexivity|].
  simpl. unfold iter_resume. mrun.
  destruct (lookup_lt_is_Some_2 ls i) as [a Ha]; [lia|].
  destruct (repr_cell _ _ _ R i a Ha) as (v & Hv & Hc).
  rewrite Ha, Hc. mred. rewrite IH by lia. reflexivity.
Qed.

Lemma iter_repr w ls vs fuel :
  repr w ls vs -> (List.length vs < fuel)%nat ->
  __iter__ fuel w = (Return (Some vs), w).
Proof.
  intros R Hf. unfold __iter__. mrun. rewrite (repr_head _ _ _ R).
  rewrite (drain_repr w ls vs) by (rewrite ?(repr_values _ _ _ R) in *; auto; lia).
  reflexivity.
Qed.

Lemma get_repr w ls vs index :
  repr w ls vs -> 0 <= index < length (self w) ->
  exists a v,
    ls !! Z.to_nat index = Some a /\ vs !! Z.to_nat index = Some v /\
    heap w !! a = Some (mkNode v (ls !! S (Z.to_nat index)) (prev_link ls (Z.to_nat index))) /\
    walk_next (Z.to_nat index) (head (self w)) w = (Return (Some a), w) /\
    walk_prev (Z.to_nat (length (self w) - index - 1)) (tail (self w)) w
      = (Return (Some a), w) /\
    get_forward index w = (Return v, w) /\
    get_backward index w = (Return v, w) /\
    get index w = (Return v, w).
Proof.
  intros R Hi. pose proof (repr_length _ _ _ R) as HL.
  destruct (lookup_lt_is_Some_2 ls (Z.to_nat index)) as [a Ha]; [lia|].
  destruct (repr_cell _ _ _ R _ a Ha) as (v & Hv & Hc).
  assert (Hfwd : walk_next (Z.to_nat index) (head (self w)) w = (Return (Some a), w)).
  { rewrite (repr_head _ _ _ R), (walk_next_repr w ls vs) by (auto; lia).
    simpl. rewrite Ha. reflexivity. }
  assert (Hbwd : walk_prev (Z.to_nat (length (self w) - index - 1)) (tail (self w)) w
                 = (Return (Some a), w)).
  { rewrite (repr_tail _ _ _ R), last_lookup, (walk_prev_repr w ls vs) by (auto; lia).
    replace (pred (List.length ls) - Z.to_nat (length (self w) - index - 1))%nat
      with (Z.to_nat index) by lia.
    rewrite Ha. reflexivity. }
  assert (Hgf : get_forward index w = (Return v, w)).
  { unfold get_forward. mrun. rewrite Hfwd. mred. rewrite Hc. reflexivity. }
  assert (Hgb : get_backward index w = (Return v, w)).
  { unfold get_backward. mrun. rewrite Hbwd. mred. rewrite Hc. reflexivity. }
  exists a, v. repeat split; auto.
  unfold get. mrun.
  replace (index <? 0) with false by (symmetry; apply Z.ltb_ge; lia).
  replace (index >=? length (self w)) with false
    by (symmetry; rewrite Z.geb_leb; apply Z.leb_gt; lia).
  simpl. destruct (index <? length (self w) `div` 2); assumption.
Qed.

Lemma get_out_of_range w index :
  index < 0 \/ index >= length (self w) ->
  get index w = (Raise (IndexError "Index out of range"), w).
Proof.
  intros Hi. unfold get. mrun.
  replace ((index <? 0) || (index >=? length (self w))) with true; [reflexivity|].
  symmetry. apply orb_true_iff. rewrite Z.ltb_lt, Z.geb_leb, Z.leb_le. lia.
Qed.

(** ** Every reachable state is represented *)

Lemma exec_repr w ls vs c :
  repr w ls vs -> exists ls' vs', repr (exec c w) ls' vs'.
Proof.
  intros R. unfold exec, run. destruct c as [v|v| | |index|fuel].
  - destruct (append_left_repr w ls vs v R) as (w' & Hrun & R').
    mrun. rewrite Hrun. eauto.
  - destruct (append_right_repr w ls vs v R) as (w' & Hrun & R').
    mrun. rewrite Hrun. eauto.
  - destruct ls as [|a ls'].
    + mrun. rewrite (pop_left_nil w vs R). eauto.
    + destruct vs as [|v vs']; [pose proof (repr_values _ _ _ R); discriminate|].
      destruct (pop_left_cons w a ls' v vs' R) as (w' & Hrun & R' & _).
      mrun. rewrite Hrun. eauto.
  - destruct ls as [|a ls' _] using rev_ind.
    + mrun. rewrite (pop_right_nil w vs R). eauto.
    + destruct vs as [|v vs' _] using rev_ind.
      { pose proof (repr_values _ _ _ R) as Hl. rewrite length_app in Hl.
        simpl in Hl. lia. }
      destruct (pop_right_snoc w a ls' v vs' R) as (w' & Hrun & R' & _).
      mrun. rewrite Hrun. eauto.
  - pose proof (get_state index w) as Hs. mrun.
    destruct (get index w) as [[r|e] w']; simpl in Hs; subst w'; eauto.
  - pose proof (iter_state fuel w) as Hs. mrun.
    destruct (__iter__ fuel w) as [[r|e] w']; simpl in Hs; subst w'; eauto.
Qed.

Lemma reachable_repr w : reachable w -> exists ls vs, repr w ls vs.
Proof.
  induction 1 as [|w c _ (ls & vs & R)].
  - exists [], []. apply repr_init.
  - eapply exec_repr; eauto.
Qed.

Lemma reachable_run_calls cs w : reachable w -> reachable (run_calls cs w).
Proof.
  revert w. induction cs as [|c cs IH]; intros w Hw; [exact Hw|].
  simpl. apply IH. constructor. exact Hw.
Qed.

(** ** Consequences of the representation *)

Lemma repr_empty w ls vs :
  repr w ls vs -> length (self w) = 0 -> ls = [] /\ vs = [].
Proof.
  intros R H0. pose proof (repr_length _ _ _ R) as HL.
  pose proof (repr_values _ _ _ R) as HV.
  destruct ls; [|simpl in HL; lia]. destruct vs; [auto | discriminate].
Qed.

Lemma repr_self w w' ls vs vs' :
  repr w ls vs -> repr w' ls vs' -> self w' = self w.
Proof.
  intros R R'.
  pose proof (repr_head _ _ _ R). pose proof (repr_head _ _ _ R').
  pose proof (repr_tail _ _ _ R). pose proof (repr_tail _ _ _ R').
  pose proof (repr_length _ _ _ R). pose proof (repr_length _ _ _ R').
  destruct (self w), (self w'); simpl in *; congruence.
Qed.

Lemma iter_full w ls vs fuel :
  repr w ls vs ->
  __iter__ fuel w =
    (Return (if decide (List.length vs < fuel)%nat then Some vs else None), w).
Proof.
  intros R. case_decide as Hf.
  - apply (iter_repr w ls vs); assumption.
  - unfold __iter__. mrun. rewrite (repr_head _ _ _ R).
    apply (drain_short w ls vs); [assumption|].
    rewrite <- (repr_values _ _ _ R). lia.
Qed.

Lemma repr_invariant w ls vs : repr w ls vs -> invariant w.
Proof.
  intros R. pose proof (repr_values _ _ _ R) as HV. unfold invariant.
  rewrite (repr_head _ _ _ R), (repr_tail _ _ _ R), (repr_length _ _ _ R).
  split; [|split].
  - destruct ls as [|a ls']; [tauto|].
    split; [discriminate|]. intros Hl. apply last_None in Hl. discriminate.
  - rewrite last_None. split; [intros ->; reflexivity|].
    destruct ls; [reflexivity | simpl; lia].
  - exists vs. split; [lia|]. split; [|split].
    + intros fuel Hf. apply (iter_repr w ls vs); assumption.
    + intros k Hk. rewrite (follow_next_repr w ls vs) by assumption.
      apply lookup_lt_is_Some_2. simpl. lia.
    + rewrite (follow_next_repr w ls vs) by assumption.
      apply lookup_ge_None_2. simpl. lia.
Qed.

(** ** Runs of appends and pops *)

Lemma appends_left_repr xs : forall w ls vs,
  repr w ls vs ->
  exists w' ls', appends_left xs w = (Return tt, w') /\
                 repr w' (ls' ++ ls) (rev xs ++ vs).
Proof.
  induction xs as [|x xs IH]; intros w ls vs R.
  - exists w, []. split; [reflexivity | exact R].
  - destruct (append_left_repr w ls vs x R) as (w1 & H1 & R1).
    destruct (IH _ _ _ R1) as (w' & ls' & H' & R').
    exists w', (ls' ++ [List.length (heap w)]). split.
    + simpl. mrun. rewrite H1. exact H'.
    + simpl. rewrite <- !app_assoc. exact R'.
Qed.

Lemma appends_right_repr xs : forall w ls vs,
  repr w ls vs ->
  exists w' ls', appends_right xs w = (Return tt, w') /\
                 repr w' (ls ++ ls') (vs ++ xs).
Proof.
  induction xs as [|x xs IH]; intros w ls vs R.
  - exists w, []. split; [reflexivity|]. rewrite !app_nil_r. exact R.
  - destruct (append_right_repr w ls vs x R) as (w1 & H1 & R1).
    destruct (IH _ _ _ R1) as (w' & ls' & H' & R').
    exists w', (List.length (heap w) :: ls'). split.
    + simpl. mrun. rewrite H1. exact H'.
    + rewrite <- !app_assoc in R'. exact R'.
Qed.

Lemma pops_left_repr n : forall w ls vs,
  repr w ls vs ->
  exists w', pops_left n w =
               (Return ((Some <$> take n vs) ++ replicate (n - List.length vs) None), w') /\
             repr w' (drop n ls) (drop n vs).
Proof.
  induction n as [|n IH]; intros w ls vs R.
  - exists w. split; [reflexivity | exact R].
  - destruct ls as [|a ls].
    + pose proof (repr_values _ _ _ R) as HV. destruct vs; [|discriminate].
      destruct (IH _ _ _ R) as (w' & H' & R').
      exists w'. split.
      * simpl. mrun. rewrite (pop_left_nil w [] R). mred.
        rewrite H'. rewrite take_nil, Nat.sub_0_r. reflexivity.
      * rewrite !drop_nil in *. exact R'.
    + destruct vs as [|v vs]; [pose proof (repr_values _ _ _ R); discriminate|].
      destruct (pop_left_cons w a ls v vs R) as (w1 & H1 & R1 & _).
      destruct (IH _ _ _ R1) as (w' & H' & R').
      exists w'. split; [|exact R'].
      simpl. mrun. rewrite H1. mred. rewrite H'. reflexivity.
Qed.

Lemma pops_right_repr n : forall w ls vs,
  repr w ls vs ->
  exists w', pops_right n w =
               (Return ((Some <$> take n (rev vs)) ++ replicate (n - List.length vs) None), w') /\
             repr w' (take (List.length ls - n) ls) (take (List.length vs - n) vs).
Proof.
  induction n as [|n IH]; intros w ls vs R.
  - exists w. split; [reflexivity|].
    rewrite !Nat.sub_0_r, !firstn_all. exact R.
  - pose proof (repr_values _ _ _ R) as HV.
    destruct ls as [|a ls _] using rev_ind.
    + destruct vs; [|discriminate].
      destruct (IH _ _ _ R) as (w' & H' & R').
      exists w'. split.
      * simpl. mrun. rewrite (pop_right_nil w [] R). mred.
        rewrite H'. simpl. rewrite take_nil, Nat.sub_0_r. reflexivity.
      * exact R'.
    + destruct vs as [|v vs _] using rev_ind.
      { rewrite length_app in HV. simpl in HV. lia. }
      rewrite !length_app in HV. simpl in HV.
      destruct (pop_right_snoc w a ls v vs R) as (w1 & H1 & R1 & _).
      destruct (IH _ _ _ R1) as (w' & H' & R').
      exists w'. split.
      * rewrite rev_unit, length_app.
        replace (S n - (List.length vs + List.length [v]))%nat
          with (n - List.length vs)%nat by (simpl; lia).
        simpl. mrun. rewrite H1. mred. rewrite H'. reflexivity.
      * rewrite !length_app. simpl.
        replace (List.length ls + 1 - S n)%nat with (List.length ls - n)%nat by lia.
        replace (List.length vs + 1 - S n)%nat with (List.length vs - n)%nat by lia.
        rewrite !take_app_le by lia. exact R'.
Qed.

Lemma run_outcome w ls vs c :
  repr w ls vs ->
  (exists r, fst (run c w) = Return r) \/
  fst (run c w) = Raise (IndexError "Index out of range").
Proof.
  intros R. unfold run. destruct c as [v|v| | |index|fuel].
  - destruct (append_left_repr w ls vs v R) as (w' & Hrun & _).
    left. mrun. rewrite Hrun. eauto.
  - destruct (append_right_repr w ls vs v R) as (w' & Hrun & _).
    left. mrun. rewrite Hrun. eauto.
  - destruct (pops_left_repr 1 w ls vs R) as (w' & Hrun & _).
    left. simpl in Hrun. revert Hrun. mrun.
    destruct (pop_left w) as [[r|e] w1]; [eauto | discriminate].
  - destruct (pops_right_repr 1 w ls vs R) as (w' & Hrun & _).
    left. simpl in Hrun. revert Hrun. mrun.
    destruct (pop_right w) as [[r|e] w1]; [eauto | discriminate].
  - destruct (decide (0 <= index < length (self w))) as [Hi|Hi].
    + destruct (get_repr w ls vs index R Hi) as (a & v & _ & _ & _ & _ & _ & _ & _ & Hg).
      left. mrun. rewrite Hg. eauto.
    + right. mrun. rewrite get_out_of_range by lia. reflexivity.
  - left. mrun. rewrite (iter_full w ls vs fuel R). eauto.
Qed.

Lemma repr_live w ls vs b :
  repr w ls vs -> live w b ->
  exists i v, ls !! i = Some b /\
              heap w !! b = Some (mkNode v (ls !! S i) (prev_link ls i)).
Proof.
  intros R [k Hk]. rewrite (repr_head _ _ _ R) in Hk.
  rewrite (follow_next_repr w ls vs) in Hk by assumption. simpl in Hk.
  destruct (repr_cell _ _ _ R k b Hk) as (v & _ & Hc). eauto.
Qed.

Lemma repr_no_link w ls vs a b n :
  repr w ls vs -> a ∉ ls -> live w b -> heap w !! b = Some n ->
  b <> a /\ next n <> Some a /\ prev n <> Some a.
Proof.
  intros R Ha Hb Hn.
  destruct (repr_live w ls vs b R Hb) as (i & v & Hi & Hc).
  rewrite Hc in Hn. injection Hn as <-. simpl.
  split; [|split].
  - intros ->. apply Ha. apply list_elem_of_lookup. eauto.
  - intros Hx. apply Ha. apply list_elem_of_lookup. eauto.
  - intros Hx. destruct i as [|j]; [discriminate|].
    apply Ha. apply list_elem_of_lookup. eauto.
Qed.

Lemma pops_left_empty w n :
  pop_left w = (Return None, w) -> pops_left n w = (Return (replicate n None), w).
Proof.
  intros Hp. induction n as [|n IH]; [reflexivity|].
  simpl. mrun. rewrite Hp. mred. rewrite IH. reflexivity.
Qed.

Lemma pops_right_empty w n :
  pop_right w = (Return None, w) -> pops_right n w = (Return (replicate n None), w).
Proof.
  intros Hp. induction n as [|n IH]; [reflexivity|].
  simpl. mrun. rewrite Hp. mred. rewrite IH. reflexivity.
Qed.

(** * The properties of the specification *)

(** C1.  The structural invariant ([head] absent iff [tail] absent iff
    [length == 0]; [length] is the number of nodes on the [next] chain from
    [head], which is the number of values a full iteration yields) holds in
    the initial state and in every state reached by the public operations,
    and so it holds again after any further call. *)
Theorem invariant_reachable w :
  reachable w -> invariant w /\ forall c, invariant (exec c w).
Proof.
  intros Hw. split.
  - destruct (reachable_repr w Hw) as (ls & vs & R). eapply repr_invariant; eauto.
  - intros c. destruct (reachable_repr (exec c w)) as (ls & vs & R).
    + constructor. exact Hw.
    + eapply repr_invariant; eauto.
Qed.

Lemma invariant_reachable_witness :
  invariant demo_state /\ forall c, invariant (exec c demo_state).
Proof.
  apply (invariant_reachable demo_state).
  apply (reachable_run_calls demo_calls). constructor.
Defined.

(** C2.  In a reachable state and for [0 <= index < length], [get(index)]
    returns the [index]-th value of the iteration and leaves the state as it
    was; it takes the forward traversal when [index < length // 2] and the
    backward one otherwise, and both traversals return that same value: the
    walk of [index] steps from [head] and the walk of [length - index - 1]
    steps from [tail] stop on the same node. *)
Theorem get_index_correct w index :
  reachable w -> 0 <= index < length (self w) ->
  exists (vs : list Z) (v : Z) (a : addr),
    (forall fuel, (List.length vs < fuel)%nat ->
       __iter__ fuel w = (Return (Some vs), w)) /\
    vs !! Z.to_nat index = Some v /\
    get index w = (Return v, w) /\
    get index w = (if index <? length (self w) `div` 2
                   then get_forward index w else get_backward index w) /\
    get_forward index w = (Return v, w) /\
    get_backward index w = (Return v, w) /\
    walk_next (Z.to_nat index) (head (self w)) w = (Return (Some a), w) /\
    walk_prev (Z.to_nat (length (self w) - index - 1)) (tail (self w)) w
      = (Return (Some a), w) /\
    value <$> heap w !! a = Some v.
Proof.
  intros Hw Hi. destruct (reachable_repr w Hw) as (ls & vs & R).
  destruct (get_repr w ls vs index R Hi)
    as (a & v & Ha & Hv & Hc & Hfwd & Hbwd & Hgf & Hgb & Hg).
  exists vs, v, a. repeat split; try assumption.
  - intros fuel Hf. apply (iter_repr w ls vs); assumption.
  - rewrite Hgf, Hgb, Hg. destruct (index <? _); reflexivity.
  - rewrite Hc. reflexivity.
Qed.

Lemma get_index_correct_witness :
  exists (vs : list Z) (v : Z) (a : addr),
    (forall fuel, (List.length vs < fuel)%nat ->
       __iter__ fuel demo_state = (Return (Some vs), demo_state)) /\
    vs !! Z.to_nat 2 = Some v /\
    get 2 demo_state = (Return v, demo_state) /\
    get 2 demo_state = (if 2 <? length (self demo_state) `div` 2
                        then get_forward 2 demo_state else get_backward 2 demo_state) /\
    get_forward 2 demo_state = (Return v, demo_state) /\
    get_backward 2 demo_state = (Return v, demo_state) /\
    walk_next (Z.to_nat 2) (head (self demo_state)) demo_state
      = (Return (Some a), demo_state) /\
    walk_prev (Z.to_nat (length (self demo_state) - 2 - 1)) (tail (self demo_state))
      demo_state = (Return (Some a), demo_state) /\
    value <$> heap demo_state !! a = Some v.
Proof.
  apply (get_index_correct demo_state 2).
  - apply (reachable_run_calls demo_calls). constructor.
  - split; [discriminate | reflexivity].
Defined.

(** C3, as amended.  From any reachable state, appending the values [xs]
    on one side and popping as many times from that same side returns them
    in reverse order of insertion.  Popping them from the opposite side
    returns them in insertion order when the starting list is empty. *)
Theorem round_trip w xs :
  reachable w ->
  fst ((appends_left xs;; pops_left (List.length xs)) w) = Return (Some <$> rev xs) /\
  fst ((appends_right xs;; pops_right (List.length xs)) w) = Return (Some <$> rev xs) /\
  (length (self w) = 0 ->
   fst ((appends_left xs;; pops_right (List.length xs)) w) = Return (Some <$> xs) /\
   fst ((appends_right xs;; pops_left (List.length xs)) w) = Return (Some <$> xs)).
Proof.
  intros Hw. destruct (reachable_repr w Hw) as (ls & vs & R).
  destruct (appends_left_repr xs w ls vs R) as (wl & ll & Hl & Rl).
  destruct (appends_right_repr xs w ls vs R) as (wr & lr & Hr & Rr).
  split; [|split].
  - destruct (pops_left_repr (List.length xs) _ _ _ Rl) as (w' & Hp & _).
    mrun. rewrite Hl, Hp. simpl. f_equal.
    rewrite <- (length_rev xs) at 1. rewrite take_app_length.
    rewrite length_app, length_rev.
    replace (_ - _)%nat with 0%nat by lia. apply app_nil_r.
  - destruct (pops_right_repr (List.length xs) _ _ _ Rr) as (w' & Hp & _).
    mrun. rewrite Hr, Hp. simpl. f_equal.
    rewrite rev_app_distr. rewrite <- (length_rev xs) at 1. rewrite take_app_length.
    rewrite length_app.
    replace (_ - _)%nat with 0%nat by lia. apply app_nil_r.
  - intros H0. destruct (repr_empty w ls vs R H0) as [-> ->].
    rewrite !app_nil_r in Rl. simpl in Rr. split.
    + destruct (pops_right_repr (List.length xs) _ _ _ Rl) as (w' & Hp & _).
      mrun. rewrite Hl, Hp. simpl. f_equal.
      rewrite rev_involutive, firstn_all, length_rev, Nat.sub_diag. apply app_nil_r.
    + destruct (pops_left_repr (List.length xs) _ _ _ Rr) as (w' & Hp & _).
      mrun. rewrite Hr, Hp. simpl. f_equal.
      rewrite firstn_all, Nat.sub_diag. apply app_nil_r.
Qed.

Lemma round_trip_witness :
  fst ((appends_left [7; 8];; pops_left 2) __init__) = Return [Some 8; Some 7] /\
  fst ((appends_right [7; 8];; pops_right 2) __init__) = Return [Some 8; Some 7] /\
  fst ((appends_left [7; 8];; pops_right 2) __init__) = Return [Some 7; Some 8] /\
  fst ((appends_right [7; 8];; pops_left 2) __init__) = Return [Some 7; Some 8].
Proof.
  destruct (round_trip __init__ [7; 8] reachable_init) as (Hl & Hr & Hopp).
  split; [exact Hl|]. split; [exact Hr|]. apply Hopp. reflexivity.
Defined.

(** C3, as stated, fails on a non-empty starting list: after
    [append_right(9)], appending 1 on the left and popping once from the
    right returns the older 9, not the appended 1. *)
Lemma round_trip_opposite_side_fails :
  reachable (run_calls [AppendRight 9] __init__) /\
  fst ((appends_left [1];; pops_right 1) (run_calls [AppendRight 9] __init__))
    = Return [Some 9] /\
  fst ((appends_left [1];; pops_right 1) (run_calls [AppendRight 9] __init__))
    <> Return (Some <$> [1]).
Proof.
  split; [|split].
  - apply reachable_run_calls. constructor.
  - reflexivity.
  - discriminate.
Qed.

(** C4.  In a reachable state, [append_left(v)] followed at once by
    [pop_left()] returns [v] and restores [head], [tail] and [length], and
    iteration yields what it yielded before; likewise for [append_right(v)]
    followed by [pop_right()]. *)
Theorem append_then_pop w v :
  reachable w ->
  (exists w', (append_left v;; pop_left) w = (Return (Some v), w') /\
              self w' = self w /\
              forall fuel, fst (__iter__ fuel w') = fst (__iter__ fuel w)) /\
  (exists w', (append_right v;; pop_right) w = (Return (Some v), w') /\
              self w' = self w /\
              forall fuel, fst (__iter__ fuel w') = fst (__iter__ fuel w)).
Proof.
  intros Hw. destruct (reachable_repr w Hw) as (ls & vs & R). split.
  - destruct (append_left_repr w ls vs v R) as (w1 & H1 & R1).
    destruct (pop_left_cons _ _ _ _ _ R1) as (w2 & H2 & R2 & _).
    exists w2. split; [mrun; rewrite H1; exact H2|].
    split; [eapply repr_self; eauto|].
    intros fuel. rewrite (iter_full w ls vs), (iter_full w2 ls vs) by assumption.
    reflexivity.
  - destruct (append_right_repr w ls vs v R) as (w1 & H1 & R1).
    destruct (pop_right_snoc _ _ _ _ _ R1) as (w2 & H2 & R2 & _).
    exists w2. split; [mrun; rewrite H1; exact H2|].
    split; [eapply repr_self; eauto|].
    intros fuel. rewrite (iter_full w ls vs), (iter_full w2 ls vs) by assumption.
    reflexivity.
Qed.

Lemma append_then_pop_witness :
  (exists w', (append_left 5;; pop_left) demo_state = (Return (Some 5), w') /\
              self w' = self demo_state /\
              forall fuel, fst (__iter__ fuel w') = fst (__iter__ fuel demo_state)) /\
  (exists w', (append_right 5;; pop_right) demo_state = (Return (Some 5), w') /\
              self w' = self demo_state /\
              forall fuel, fst (__iter__ fuel w') = fst (__iter__ fuel demo_state)).
Proof.
  apply (append_then_pop demo_state 5).
  apply (reachable_run_calls demo_calls). constructor.
Defined.

(** C5.  On an empty reachable list [pop_left()] and [pop_right()] return
    [None] without raising and leave the state exactly as it was, so any
    number of repeated pops keeps returning [None] on the same state. *)
Theorem pop_empty w n :
  reachable w -> length (self w) = 0 ->
  pop_left w = (Return None, w) /\
  pop_right w = (Return None, w) /\
  pops_left n w = (Return (replicate n None), w) /\
  pops_right n w = (Return (replicate n None), w).
Proof.
  intros Hw H0. destruct (reachable_repr w Hw) as (ls & vs & R).
  destruct (repr_empty w ls vs R H0) as [-> ->].
  pose proof (pop_left_nil w [] R) as Hl.
  pose proof (pop_right_nil w [] R) as Hr.
  repeat split; auto using pops_left_empty, pops_right_empty.
Qed.

Lemma pop_empty_witness :
  pop_left __init__ = (Return None, __init__) /\
  pop_right __init__ = (Return None, __init__) /\
  pops_left 3 __init__ = (Return (replicate 3 None), __init__) /\
  pops_right 3 __init__ = (Return (replicate 3 None), __init__).
Proof. apply (pop_empty __init__ 3); [constructor | reflexivity]. Defined.

(** C6, as amended.  In a reachable state [get(index)] raises exactly when
    [index < 0] or [index >= length]; what it raises is [IndexError] with
    the fixed message "Index out of range" (the index is not part of it);
    an index in range returns a value, so no out-of-range index is clamped
    or wrapped to a valid one; and the state is unchanged in every case. *)
Theorem get_bounds w index :
  reachable w ->
  (index < 0 \/ index >= length (self w) ->
     get index w = (Raise (IndexError "Index out of range"), w)) /\
  (0 <= index < length (self w) -> exists v, get index w = (Return v, w)) /\
  ((exists e, fst (get index w) = Raise e) <-> index < 0 \/ index >= length (self w)) /\
  snd (get index w) = w.
Proof.
  intros Hw. destruct (reachable_repr w Hw) as (ls & vs & R).
  assert (Hin : 0 <= index < length (self w) -> exists v, get index w = (Return v, w)).
  { intros Hi.
    destruct (get_repr w ls vs index R Hi) as (a & v & _ & _ & _ & _ & _ & _ & _ & Hg).
    eauto. }
  split; [apply get_out_of_range|]. split; [exact Hin|]. split; [|apply get_state].
  split.
  - intros [e He]. destruct (decide (0 <= index < length (self w))) as [Hi|Hi]; [|lia].
    destruct (Hin Hi) as [v Hv]. rewrite Hv in He. discriminate.
  - intros Hi. rewrite get_out_of_range by assumption. eauto.
Qed.

Lemma get_bounds_witness :
  get 99 demo_state = (Raise (IndexError "Index out of range"), demo_state) /\
  (exists v, get 2 demo_state = (Return v, demo_state)) /\
  snd (get 99 demo_state) = demo_state.
Proof.
  assert (Hd : reachable demo_state)
    by (apply (reachable_run_calls demo_calls); constructor).
  destruct (get_bounds demo_state 99 Hd) as (Hout & _ & _ & Hsame).
  destruct (get_bounds demo_state 2 Hd) as (_ & Hin & _ & _).
  split; [apply Hout; right; discriminate|].
  split; [apply Hin; split; [discriminate | reflexivity] | exact Hsame].
Defined.

(** C6, as stated, fails: the exception does not carry the index.
    [get(99)] and [get(100)] on the five-element list raise the very same
    [IndexError], so nothing read from the exception gives the index back. *)
Lemma get_error_omits_index :
  fst (get 99 demo_state) = Raise (IndexError "Index out of range") /\
  fst (get 100 demo_state) = Raise (IndexError "Index out of range") /\
  ~ (exists index_of : exn -> Z,
       forall index e, fst (get index demo_state) = Raise e -> index_of e = index).
Proof.
  split; [reflexivity|]. split; [reflexivity|].
  intros [index_of H].
  pose proof (H 99 _ eq_refl) as H99. pose proof (H 100 _ eq_refl) as H100.
  rewrite H99 in H100. discriminate.
Qed.

(** C7, as amended.  When [pop_left()] removes the head node of a
    reachable list, nothing of the live list refers to that node any more:
    neither [head] nor [tail], nor the [next] or [prev] of any live node,
    and the walk from [head] no longer meets it.  The node itself is not
    cleared: its [prev] is absent, and its [next] still is the new [head]
    (absent only when the list had that one node).  Symmetrically for
    [pop_right()]: [next] is absent, [prev] still is the new [tail]. *)
Theorem pop_unlinks w :
  reachable w ->
  (forall a, head (self w) = Some a ->
     exists v w', pop_left w = (Return (Some v), w') /\
       heap w' !! a = Some (mkNode v (head (self w')) None) /\
       head (self w') <> Some a /\ tail (self w') <> Some a /\ ~ live w' a /\
       forall b n, live w' b -> heap w' !! b = Some n ->
                   next n <> Some a /\ prev n <> Some a) /\
  (forall a, tail (self w) = Some a ->
     exists v w', pop_right w = (Return (Some v), w') /\
       heap w' !! a = Some (mkNode v None (tail (self w'))) /\
       head (self w') <> Some a /\ tail (self w') <> Some a /\ ~ live w' a /\
       forall b n, live w' b -> heap w' !! b = Some n ->
                   next n <> Some a /\ prev n <> Some a).
Proof.
  intros Hw. destruct (reachable_repr w Hw) as (ls & vs & R).
  pose proof (repr_values _ _ _ R) as HV.
  pose proof (repr_nodup _ _ _ R) as Hnd.
  split; intros a Ha.
  - rewrite (repr_head _ _ _ R) in Ha.
    destruct ls as [|a' ls]; [discriminate|]. simpl in Ha. injection Ha as ->.
    destruct vs as [|v vs]; [discriminate|].
    apply NoDup_cons in Hnd as [Hnotin _].
    destruct (pop_left_cons w a ls v vs R) as (w' & Hp & R' & Hcell).
    exists v, w'. split; [exact Hp|].
    rewrite (repr_head _ _ _ R'), (repr_tail _ _ _ R').
    split; [exact Hcell|]. split; [|split; [|split]].
    + intros Hx. apply Hnotin. apply list_elem_of_lookup. eauto.
    + intros Hx. apply Hnotin. apply last_Some_elem_of. exact Hx.
    + intros Hl. destruct (repr_live _ _ _ _ R' Hl) as (i & _ & Hi & _).
      apply Hnotin. apply list_elem_of_lookup. eauto.
    + intros b n Hb Hn.
      destruct (repr_no_link w' ls vs a b n R' Hnotin Hb Hn) as (_ & ? & ?). auto.
  - rewrite (repr_tail _ _ _ R) in Ha.
    apply last_Some in Ha as [ls' ->].
    destruct vs as [|v vs _] using rev_ind.
    { rewrite length_app in HV. simpl in HV. lia. }
    apply NoDup_app in Hnd as (_ & Hnotin & _).
    assert (Hnotin' : a ∉ ls').
    { intros Hin. apply (Hnotin a Hin). left. }
    destruct (pop_right_snoc w a ls' v vs R) as (w' & Hp & R' & Hcell).
    exists v, w'. split; [exact Hp|].
    rewrite (repr_head _ _ _ R'), (repr_tail _ _ _ R').
    split; [exact Hcell|]. split; [|split; [|split]].
    + intros Hx. apply Hnotin'. apply list_elem_of_lookup. eauto.
    + intros Hx. apply Hnotin'. apply last_Some_elem_of. exact Hx.
    + intros Hl. destruct (repr_live _ _ _ _ R' Hl) as (i & _ & Hi & _).
      apply Hnotin'. apply list_elem_of_lookup. eauto.
    + intros b n Hb Hn.
      destruct (repr_no_link w' ls' vs a b n R' Hnotin' Hb Hn) as (_ & ? & ?). auto.
Qed.

Lemma pop_unlinks_witness :
  (exists v w', pop_left demo_state = (Return (Some v), w') /\
     heap w' !! 4%nat = Some (mkNode v (head (self w')) None) /\
     head (self w') <> Some 4%nat /\ tail (self w') <> Some 4%nat /\ ~ live w' 4%nat /\
     forall b n, live w' b -> heap w' !! b = Some n ->
                 next n <> Some 4%nat /\ prev n <> Some 4%nat) /\
  (exists v w', pop_right demo_state = (Return (Some v), w') /\
     heap w' !! 2%nat = Some (mkNode v None (tail (self w'))) /\
     head (self w') <> Some 2%nat /\ tail (self w') <> Some 2%nat /\ ~ live w' 2%nat /\
     forall b n, live w' b -> heap w' !! b = Some n ->
                 next n <> Some 2%nat /\ prev n <> Some 2%nat).
Proof.
  assert (Hd : reachable demo_state)
    by (apply (reachable_run_calls demo_calls); constructor).
  destruct (pop_unlinks demo_state Hd) as [Hl Hr].
  split; [apply Hl | apply Hr]; reflexivity.
Defined.

(** C7, as stated, fails: after [append_right(1)], [append_right(2)] and
    [pop_left()], the popped node (at address 0) still has its [next]
    referring to the node at address 1, which is the head of the live
    list. *)
Lemma popped_node_keeps_next :
  head (self (run_calls [AppendRight 1; AppendRight 2] __init__)) = Some 0%nat /\
  fst (pop_left (run_calls [AppendRight 1; AppendRight 2] __init__)) = Return (Some 1) /\
  next <$> heap (snd (pop_left (run_calls [AppendRight 1; AppendRight 2] __init__))) !! 0%nat
    = Some (Some 1%nat) /\
  head (self (snd (pop_left (run_calls [AppendRight 1; AppendRight 2] __init__))))
    = Some 1%nat /\
  live (snd (pop_left (run_calls [AppendRight 1; AppendRight 2] __init__))) 1%nat.
Proof. repeat split. exists 0%nat. reflexivity. Qed.

(** C9.  In a reachable state no public call fails an assertion (nor
    dereferences an address outside the store): when [length > 1] the
    [next] of the head node and the [prev] of the tail node are present, as
    the asserts of [pop_left] and [pop_right] expect, and every call,
    [get] with any index included, either returns or raises the
    [IndexError] of the bounds check. *)
Theorem assertions_hold w :
  reachable w ->
  (1 < length (self w) ->
     exists a n b, head (self w) = Some a /\ heap w !! a = Some n /\ next n = Some b) /\
  (1 < length (self w) ->
     exists a n b, tail (self w) = Some a /\ heap w !! a = Some n /\ prev n = Some b) /\
  (forall c, fst (run c w) <> Raise AssertionError /\
             fst (run c w) <> Raise StoreFault) /\
  (forall index, 0 <= index < length (self w) ->
     (exists v, get_forward index w = (Return v, w)) /\
     (exists v, get_backward index w = (Return v, w))).
Proof.
  intros Hw. destruct (reachable_repr w Hw) as (ls & vs & R).
  pose proof (repr_length _ _ _ R) as HL.
  split; [|split; [|split]].
  - intros H1. destruct ls as [|a [|b ls]]; try (simpl in HL; lia).
    destruct (repr_cell _ _ _ R 0%nat a eq_refl) as (v & _ & Hc).
    rewrite (repr_head _ _ _ R). eexists a, _, b.
    split; [reflexivity|]. split; [exact Hc | reflexivity].
  - intros H1. rewrite (repr_tail _ _ _ R), last_lookup.
    destruct (lookup_lt_is_Some_2 ls (pred (List.length ls))) as [a Ha]; [lia|].
    destruct (lookup_lt_is_Some_2 ls (pred (pred (List.length ls)))) as [b Hb]; [lia|].
    destruct (repr_cell _ _ _ R _ a Ha) as (v & _ & Hc).
    eexists a, _, b. split; [exact Ha|]. split; [exact Hc|].
    simpl. destruct (List.length ls) as [|[|k]]; try (simpl in HL; lia). exact Hb.
  - intros c. destruct (run_outcome w ls vs c R) as [[r Hr]|Hr];
      rewrite Hr; split; discriminate.
  - intros index Hi.
    destruct (get_repr w ls vs index R Hi) as (a & v & _ & _ & _ & _ & _ & Hgf & Hgb & _).
    eauto.
Qed.

Lemma assertions_hold_witness :
  (exists a n b, head (self demo_state) = Some a /\ heap demo_state !! a = Some n /\
                 next n = Some b) /\
  (exists a n b, tail (self demo_state) = Some a /\ heap demo_state !! a = Some n /\
                 prev n = Some b) /\
  (forall c, fst (run c demo_state) <> Raise AssertionError /\
             fst (run c demo_state) <> Raise StoreFault).
Proof.
  assert (Hd : reachable demo_state)
    by (apply (reachable_run_calls demo_calls); constructor).
  destruct (assertions_hold demo_state Hd) as (Hh & Ht & Hc & _).
  split; [apply Hh; reflexivity|]. split; [apply Ht; reflexivity | exact Hc].
Defined.

(** ** The runs of the source's [__main__] block *)

Example demo_iteration :
  __iter__ 6 demo_state = (Return (Some [-1; 0; 1; 2; 3]), demo_state) /\
  length (self demo_state) = 5.
Proof. split; reflexivity. Qed.

Example demo_get :
  fst (get 0 demo_state) = Return (-1) /\
  fst (get 2 demo_state) = Return 1 /\
  fst (get 4 demo_state) = Return 3 /\
  fst (get 99 demo_state) = Raise (IndexError "Index out of range").
Proof. repeat split. Qed.

Example demo_pops :
  observe [PopLeft; Iterate 9; PopLeft; Iterate 9; PopRight; Iterate 9;
           PopRight; Iterate 9; PopLeft; PopLeft; PopRight] demo_state =
  [Return (Popped (Some (-1))); Return (Listed (Some [0; 1; 2; 3]));
   Return (Popped (Some 0)); Return (Listed (Some [1; 2; 3]));
   Return (Popped (Some 3)); Return (Listed (Some [1; 2]));
   Return (Popped (Some 2)); Return (Listed (Some [1]));
   Return (Popped (Some 1)); Return (Popped None); Return (Popped None)].
Proof. reflexivity. Qed.

End DLLProps.

(** * The two variants side by side *)

Ltac both_run :=
  cbv [agree forget mbind M_bind mret M_ret gets modify raise
       DLL.get_head DLL.get_tail DLL.get_length DLL.set_head DLL.set_tail
       DLL.set_length DLL.new_Node DLL.load DLL.set_next DLL.set_prev
       DLL.assert_node LL.get_head LL.get_tail LL.set_head LL.set_tail
       LL.new_Node LL.load LL.set_next LL.set_prev LL.assert_node
       store_alloc Node__init__];
  cbn [DLL.heap DLL.self DLL.head DLL.tail DLL.length
       LL.heap LL.self LL.head LL.tail value next prev fst snd].

Ltac both_red :=
  cbn [DLL.heap DLL.self DLL.head DLL.tail DLL.length
       LL.heap LL.self LL.head LL.tail value next prev fst snd].

Ltac both_case :=
  repeat (cbn [DLL.heap DLL.self DLL.head DLL.tail DLL.length
               LL.heap LL.self LL.head LL.tail value next prev fst snd];
          match goal with
          | |- context [match ?x !! ?a with _ => _ end] => destruct (x !! a) eqn:?
          | |- context [match ?x with Some _ => _ | None => _ end] => destruct x eqn:?
          | |- context [decide ?P] => destruct (decide P)
          end).

Lemma agree_append_left v : agree (LL.append_left v) (DLL.append_left v).
Proof.
  intros [h [hd tl len]]. unfold LL.append_left, DLL.append_left.
  both_run. both_case; reflexivity.
Qed.

Lemma agree_append_right v : agree (LL.append_right v) (DLL.append_right v).
Proof.
  intros [h [hd tl len]]. unfold LL.append_right, DLL.append_right.
  both_run. both_case; reflexivity.
Qed.

Lemma agree_pop_left : agree LL.pop_left DLL.pop_left.
Proof.
  intros [h [hd tl len]]. unfold LL.pop_left, DLL.pop_left.
  both_run. both_case; reflexivity.
Qed.

Lemma agree_pop_right : agree LL.pop_right DLL.pop_right.
Proof.
  intros [h [hd tl len]]. unfold LL.pop_right, DLL.pop_right.
  both_run. both_case; reflexivity.
Qed.

Lemma agree_drain fuel current : agree (LL.drain fuel current) (DLL.drain fuel current).
Proof.
  revert current. induction fuel as [|fuel IH]; intros current w; [reflexivity|].
  simpl. unfold LL.iter_resume, DLL.iter_resume.
  destruct current as [a|]; both_run; [|reflexivity].
  destruct (DLL.heap w !! a) as [nd|]; both_red; [|reflexivity].
  specialize (IH (next nd) w). unfold forget in IH. rewrite IH.
  destruct (DLL.drain fuel (next nd) w) as [[r|e] w']; reflexivity.
Qed.

Lemma agree_iter fuel : agree (LL.__iter__ fuel) (DLL.__iter__ fuel).
Proof.
  intros w. unfold LL.__iter__, DLL.__iter__.
  cbv [mbind M_bind LL.get_head DLL.get_head gets].
  apply agree_drain.
Qed.

Lemma agree_run c : agree (LL.run c) (DLL.run (tracked c)).
Proof.
  intros w. destruct c as [v|v| | |fuel]; simpl;
    cbv [mbind M_bind mret M_ret].
  - rewrite agree_append_left. destruct (DLL.append_left v w) as [[r|e] w']; reflexivity.
  - rewrite agree_append_right. destruct (DLL.append_right v w) as [[r|e] w']; reflexivity.
  - rewrite agree_pop_left. destruct (DLL.pop_left w) as [[r|e] w']; reflexivity.
  - rewrite agree_pop_right. destruct (DLL.pop_right w) as [[r|e] w']; reflexivity.
  - rewrite agree_iter. destruct (DLL.__iter__ fuel w) as [[r|e] w']; reflexivity.
Qed.

Lemma observe_forget cs : forall w,
  LL.observe cs (forget w) = DLL.observe (tracked <$> cs) w.
Proof.
  induction cs as [|c cs IH]; intros w; [reflexivity|].
  simpl. rewrite agree_run.
  destruct (DLL.run (tracked c) w) as [r w']. simpl. rewrite IH. reflexivity.
Qed.

Lemma exec_forget c w : LL.exec c (forget w) = forget (DLL.exec (tracked c) w).
Proof. unfold LL.exec. rewrite agree_run. reflexivity. Qed.

Lemma run_calls_forget cs : forall w,
  LL.run_calls cs (forget w) = forget (DLL.run_calls (tracked <$> cs) w).
Proof.
  induction cs as [|c cs IH]; intros w; [reflexivity|].
  simpl. rewrite exec_forget. apply IH.
Qed.

Lemma reachable_forget u :
  LL.reachable u -> exists w, DLL.reachable w /\ u = forget w.
Proof.
  induction 1 as [|u c _ (w & Hw & ->)].
  - exists DLL.__init__. split; [constructor | reflexivity].
  - exists (DLL.exec (tracked c) w). split; [constructor; exact Hw|].
    apply exec_forget.
Qed.

(** C8.  The untracked list of [linked_list.py] and the length-tracked list
    of [doubly_linked_list.py] cannot be told apart through the operations
    they share: for every sequence of [append_left], [append_right],
    [pop_left], [pop_right] calls and iterations made on a fresh list, each
    call has the same outcome in both variants, the two final states differ
    by the [length] attribute only, and iterating them yields the same
    values. *)
Theorem variants_equivalent (cs : list LL.call) :
  LL.observe cs LL.__init__ = DLL.observe (tracked <$> cs) DLL.__init__ /\
  LL.run_calls cs LL.__init__ = forget (DLL.run_calls (tracked <$> cs) DLL.__init__) /\
  forall fuel,
    fst (LL.__iter__ fuel (LL.run_calls cs LL.__init__)) =
    fst (DLL.__iter__ fuel (DLL.run_calls (tracked <$> cs) DLL.__init__)).
Proof.
  split; [apply (observe_forget cs DLL.__init__)|].
  split; [apply (run_calls_forget cs DLL.__init__)|].
  intros fuel. change LL.__init__ with (forget DLL.__init__).
  rewrite run_calls_forget, agree_iter. reflexivity.
Qed.

(** C10.  Iteration terminates.  In a reachable state the chain of [next]
    references from [head] runs through [length] distinct nodes and then
    ends, so draining [__iter__] stops after it has yielded exactly
    [length] values (fuel beyond [length] is never used, less fuel is not
    enough); the same holds for the [__iter__] of the untracked variant on
    the same list; and [get] always comes back, with a value or with the
    [IndexError] of its bounds check. *)
Theorem iteration_terminates w :
  DLL.reachable w ->
  exists (ls : list addr) (vs : list Z),
    DLL.length (DLL.self w) = Z.of_nat (List.length vs) /\
    List.length ls = List.length vs /\
    NoDup ls /\
    (forall k, DLL.follow_next (DLL.heap w) k (DLL.head (DLL.self w)) = ls !! k) /\
    (forall fuel, DLL.__iter__ fuel w =
       (Return (if decide (List.length vs < fuel)%nat then Some vs else None), w)) /\
    (forall fuel, LL.__iter__ fuel (forget w) =
       (Return (if decide (List.length vs < fuel)%nat then Some vs else None), forget w)) /\
    (forall index,
       (exists v, DLL.get index w = (Return v, w)) \/
       DLL.get index w = (Raise (IndexError "Index out of range"), w)).
Proof.
  intros Hw. destruct (DLLProps.reachable_repr w Hw) as (ls & vs & R).
  pose proof (DLL.repr_values _ _ _ R) as HV.
  exists ls, vs.
  split; [rewrite (DLL.repr_length _ _ _ R); lia|].
  split; [lia|]. split; [apply (DLL.repr_nodup _ _ _ R)|].
  split; [|split; [|split]].
  - intros k. rewrite (DLL.repr_head _ _ _ R).
    apply (DLLProps.follow_next_repr w ls vs k 0%nat R).
  - intros fuel. apply (DLLProps.iter_full w ls vs fuel R).
  - intros fuel. rewrite agree_iter, (DLLProps.iter_full w ls vs fuel R). reflexivity.
  - intros index.
    destruct (decide (0 <= index < DLL.length (DLL.self w))) as [Hi|Hi].
    + destruct (DLLProps.get_repr w ls vs index R Hi)
        as (a & v & _ & _ & _ & _ & _ & _ & _ & Hg).
      left. eauto.
    + right. apply DLLProps.get_out_of_range. lia.
Qed.

Lemma iteration_terminates_witness :
  exists (ls : list addr) (vs : list Z),
    DLL.length (DLL.self DLL.demo_state) = Z.of_nat (List.length vs) /\
    List.length ls = List.length vs /\
    NoDup ls /\
    (forall k, DLL.follow_next (DLL.heap DLL.demo_state) k (DLL.head (DLL.self DLL.demo_state))
               = ls !! k) /\
    (forall fuel, DLL.__iter__ fuel DLL.demo_state =
       (Return (if decide (List.length vs < fuel)%nat then Some vs else None),
        DLL.demo_state)) /\
    (forall fuel, LL.__iter__ fuel (forget DLL.demo_state) =
       (Return (if decide (List.length vs < fuel)%nat then Some vs else None),
        forget DLL.demo_state)) /\
    (forall index,
       (exists v, DLL.get index DLL.demo_state = (Return v, DLL.demo_state)) \/
       DLL.get index DLL.demo_state
         = (Raise (IndexError "Index out of range"), DLL.demo_state)).
Proof.
  apply (iteration_terminates DLL.demo_state).
  apply (DLLProps.reachable_run_calls DLL.demo_calls). constructor.
Defined.

(** * Further properties of doubly_linked_list.py *)

Module DLLMore.
Import DLL DLLProps.

Lemma repr_store_bound w ls vs :
  repr w ls vs -> (List.length ls <= List.length (heap w))%nat.
Proof.
  intros R.
  assert (H : (List.length ls <= List.length (seq 0 (List.length (heap w))))%nat).
  { apply submseteq_length, NoDup_submseteq; [apply (repr_nodup _ _ _ R)|].
    intros a Ha. apply elem_of_seq.
    pose proof (repr_bound w ls vs a R Ha). lia. }
  rewrite length_seq in H. exact H.
Qed.

Lemma to_list_repr w ls vs : repr w ls vs -> to_list w = Some vs.
Proof.
  intros R. unfold to_list. rewrite (iter_full w ls vs) by assumption.
  pose proof (repr_store_bound w ls vs R).
  pose proof (repr_values _ _ _ R).
  rewrite decide_True by lia. reflexivity.
Qed.

Lemma reachable_demo : reachable demo_state.
Proof. apply (reachable_run_calls demo_calls). constructor. Qed.

(** X1.  [append_left(v)] always returns, puts [v] in front of the values
    the list held, in their order, and adds one to [length]. *)
Theorem append_left_contents w v :
  reachable w ->
  exists vs w',
    to_list w = Some vs /\
    append_left v w = (Return tt, w') /\
    to_list w' = Some (v :: vs) /\
    length (self w') = length (self w) + 1.
Proof.
  intros Hw. destruct (reachable_repr w Hw) as (ls & vs & R).
  destruct (append_left_repr w ls vs v R) as (w' & Hrun & R').
  exists vs, w'. split; [eapply to_list_repr; eauto|].
  split; [exact Hrun|]. split; [eapply to_list_repr; eauto|].
  rewrite (repr_length _ _ _ R), (repr_length _ _ _ R'). simpl. lia.
Qed.

Lemma append_left_contents_witness :
  exists vs w',
    to_list demo_state = Some vs /\
    append_left 7 demo_state = (Return tt, w') /\
    to_list w' = Some (7 :: vs) /\
    length (self w') = length (self demo_state) + 1.
Proof. apply (append_left_contents demo_state 7 reachable_demo). Defined.

(** X2.  [append_right(v)] always returns, puts [v] behind the values the
    list held, in their order, and adds one to [length]. *)
Theorem append_right_contents w v :
  reachable w ->
  exists vs w',
    to_list w = Some vs /\
    append_right v w = (Return tt, w') /\
    to_list w' = Some (vs ++ [v]) /\
    length (self w') = length (self w) + 1.
Proof.
  intros Hw. destruct (reachable_repr w Hw) as (ls & vs & R).
  destruct (append_right_repr w ls vs v R) as (w' & Hrun & R').
  exists vs, w'. split; [eapply to_list_repr; eauto|].
  split; [exact Hrun|]. split; [eapply to_list_repr; eauto|].
  rewrite (repr_length _ _ _ R), (repr_length _ _ _ R'), length_app. simpl. lia.
Qed.

Lemma append_right_contents_witness :
  exists vs w',
    to_list demo_state = Some vs /\
    append_right 7 demo_state = (Return tt, w') /\
    to_list w' = Some (vs ++ [7]) /\
    length (self w') = length (self demo_state) + 1.
Proof. apply (append_right_contents demo_state 7 reachable_demo). Defined.

Lemma pop_left_repr w ls vs :
  repr w ls vs ->
  exists w', pop_left w = (Return (vs !! 0%nat), w') /\
             repr w' (drop 1 ls) (drop 1 vs).
Proof.
  intros R. destruct (pops_left_repr 1 w ls vs R) as (w' & Hp & R').
  exists w'. split; [|exact R'].
  simpl in Hp. revert Hp. mrun.
  destruct (pop_left w) as [[r|e] w1]; [|discriminate].
  intros Hp. injection Hp as Hr ->. f_equal. f_equal.
  destruct vs as [|v vs]; simpl in Hr; injection Hr as ->; reflexivity.
Qed.

Lemma pop_right_repr w ls vs :
  repr w ls vs ->
  exists w', pop_right w = (Return (last vs), w') /\
             repr w' (removelast ls) (removelast vs).
Proof.
  intros R. pose proof (repr_values _ _ _ R) as HV.
  destruct ls as [|a ls _] using rev_ind.
  - destruct vs; [|discriminate]. exists w. split; [|exact R].
    apply (pop_right_nil w [] R).
  - destruct vs as [|v vs _] using rev_ind.
    { rewrite length_app in HV. simpl in HV. lia. }
    destruct (pop_right_snoc w a ls v vs R) as (w' & Hp & R' & _).
    exists w'. rewrite last_snoc, !removelast_last. auto.
Qed.

(** X3.  [pop_left()] returns the first value of the list, or [None] when
    there is none, and what remains is the other values in their order;
    [length] is their number. *)
Theorem pop_left_contents w :
  reachable w ->
  exists vs w',
    to_list w = Some vs /\
    pop_left w = (Return (vs !! 0%nat), w') /\
    to_list w' = Some (drop 1 vs) /\
    length (self w') = Z.of_nat (List.length (drop 1 vs)).
Proof.
  intros Hw. destruct (reachable_repr w Hw) as (ls & vs & R).
  destruct (pop_left_repr w ls vs R) as (w' & Hrun & R').
  exists vs, w'. split; [eapply to_list_repr; eauto|].
  split; [exact Hrun|]. split; [eapply to_list_repr; eauto|].
  rewrite (repr_length _ _ _ R'), (repr_values _ _ _ R'). reflexivity.
Qed.

Lemma pop_left_contents_witness :
  exists vs w',
    to_list demo_state = Some vs /\
    pop_left demo_state = (Return (vs !! 0%nat), w') /\
    to_list w' = Some (drop 1 vs) /\
    length (self w') = Z.of_nat (List.length (drop 1 vs)).
Proof. apply (pop_left_contents demo_state reachable_demo). Defined.

(** X4.  [pop_right()] returns the last value of the list, or [None] when
    there is none, and what remains is the other values in their order;
    [length] is their number. *)
Theorem pop_right_contents w :
  reachable w ->
  exists vs w',
    to_list w = Some vs /\
    pop_right w = (Return (last vs), w') /\
    to_list w' = Some (removelast vs) /\
    length (self w') = Z.of_nat (List.length (removelast vs)).
Proof.
  intros Hw. destruct (reachable_repr w Hw) as (ls & vs & R).
  destruct (pop_right_repr w ls vs R) as (w' & Hrun & R').
  exists vs, w'. split; [eapply to_list_repr; eauto|].
  split; [exact Hrun|]. split; [eapply to_list_repr; eauto|].
  rewrite (repr_length _ _ _ R'), (repr_values _ _ _ R'). reflexivity.
Qed.

Lemma pop_right_contents_witness :
  exists vs w',
    to_list demo_state = Some vs /\
    pop_right demo_state = (Return (last vs), w') /\
    to_list w' = Some (removelast vs) /\
    length (self w') = Z.of_nat (List.length (removelast vs)).
Proof. apply (pop_right_contents demo_state reachable_demo). Defined.

(** X5.  [len(dll)] returns the number of values the list holds and leaves
    the state alone; it is 0 exactly when [pop_left()] returns [None], and
    exactly when [pop_right()] does. *)
Theorem len_counts w :
  reachable w ->
  exists vs,
    to_list w = Some vs /\
    __len__ w = (Return (Z.of_nat (List.length vs)), w) /\
    (fst (__len__ w) = Return 0 <-> fst (pop_left w) = Return None) /\
    (fst (__len__ w) = Return 0 <-> fst (pop_right w) = Return None).
Proof.
  intros Hw. destruct (reachable_repr w Hw) as (ls & vs & R).
  destruct (pop_left_repr w ls vs R) as (wl & Hl & _).
  destruct (pop_right_repr w ls vs R) as (wr & Hr & _).
  exists vs. split; [eapply to_list_repr; eauto|].
  assert (Hlen : __len__ w = (Return (Z.of_nat (List.length vs)), w)).
  { unfold __len__. mrun.
    rewrite (repr_length _ _ _ R), (repr_values _ _ _ R). reflexivity. }
  split; [exact Hlen|]. rewrite Hlen, Hl, Hr. simpl.
  split; split; intros H.
  - destruct vs; [reflexivity | injection H as H; simpl in H; lia].
  - destruct vs; [reflexivity | discriminate].
  - destruct vs as [|v vs _] using rev_ind; [reflexivity|].
    injection H as H. rewrite length_app in H. simpl in H. lia.
  - destruct vs as [|v vs _] using rev_ind; [reflexivity|].
    rewrite last_snoc in H. discriminate.
Qed.

Lemma len_counts_witness :
  exists vs,
    to_list demo_state = Some vs /\
    __len__ demo_state = (Return (Z.of_nat (List.length vs)), demo_state) /\
    (fst (__len__ demo_state) = Return 0 <-> fst (pop_left demo_state) = Return None) /\
    (fst (__len__ demo_state) = Return 0 <-> fst (pop_right demo_state) = Return None).
Proof. apply (len_counts demo_state reachable_demo). Defined.

(** X6.  The [prev] links mirror the [next] links.  In a reachable state
    the head node has no [prev], the tail node has no [next], and for live
    nodes [b] and [c]: when [b.next] is [c] then [c] is live and [c.prev]
    is [b], and when [b.prev] is [c] then [c] is live and [c.next] is
    [b]. *)
Theorem links_inverse w :
  reachable w ->
  (forall a n, head (self w) = Some a -> heap w !! a = Some n -> prev n = None) /\
  (forall a n, tail (self w) = Some a -> heap w !! a = Some n -> next n = None) /\
  (forall b nb c, live w b -> heap w !! b = Some nb -> next nb = Some c ->
     live w c /\ exists nc, heap w !! c = Some nc /\ prev nc = Some b) /\
  (forall b nb c, live w b -> heap w !! b = Some nb -> prev nb = Some c ->
     live w c /\ exists nc, heap w !! c = Some nc /\ next nc = Some b).
Proof.
  intros Hw. destruct (reachable_repr w Hw) as (ls & vs & R).
  assert (Hlive : forall i c, ls !! i = Some c -> live w c).
  { intros i c Hi. exists i. rewrite (repr_head _ _ _ R).
    rewrite (follow_next_repr w ls vs) by assumption. exact Hi. }
  split; [|split; [|split]].
  - intros a n Ha Hn. rewrite (repr_head _ _ _ R) in Ha.
    destruct (repr_cell _ _ _ R 0%nat a Ha) as (v & _ & Hc).
    rewrite Hc in Hn. injection Hn as <-. reflexivity.
  - intros a n Ha Hn. rewrite (repr_tail _ _ _ R), last_lookup in Ha.
    destruct (repr_cell _ _ _ R _ a Ha) as (v & _ & Hc).
    rewrite Hc in Hn. injection Hn as <-. simpl.
    apply lookup_ge_None_2. lia.
  - intros b nb c Hb Hn Hnext.
    destruct (repr_live w ls vs b R Hb) as (i & v & Hi & Hc).
    rewrite Hc in Hn. injection Hn as <-. simpl in Hnext.
    split; [eapply Hlive; eauto|].
    destruct (repr_cell _ _ _ R (S i) c Hnext) as (vc & _ & Hcc).
    eexists. split; [exact Hcc|]. exact Hi.
  - intros b nb c Hb Hn Hprev.
    destruct (repr_live w ls vs b R Hb) as (i & v & Hi & Hc).
    rewrite Hc in Hn. injection Hn as <-. simpl in Hprev.
    destruct i as [|j]; [discriminate|]. simpl in Hprev.
    split; [eapply Hlive; eauto|].
    destruct (repr_cell _ _ _ R j c Hprev) as (vc & _ & Hcc).
    eexists. split; [exact Hcc|]. exact Hi.
Qed.

Lemma links_inverse_witness :
  (forall a n, head (self demo_state) = Some a -> heap demo_state !! a = Some n ->
     prev n = None) /\
  (forall a n, tail (self demo_state) = Some a -> heap demo_state !! a = Some n ->
     next n = None) /\
  (forall b nb c, live demo_state b -> heap demo_state !! b = Some nb -> next nb = Some c ->
     live demo_state c /\ exists nc, heap demo_state !! c = Some nc /\ prev nc = Some b) /\
  (forall b nb c, live demo_state b -> heap demo_state !! b = Some nb -> prev nb = Some c ->
     live demo_state c /\ exists nc, heap demo_state !! c = Some nc /\ next nc = Some b).
Proof. apply (links_inverse demo_state reachable_demo). Defined.

(** X7.  The test [self.head == self.tail] of the pops holds exactly when
    the list has at most one node; a list of length 1 has one node that is
    both head and tail and has neither [next] nor [prev]. *)
Theorem head_is_tail w :
  reachable w ->
  (head (self w) = tail (self w) <-> length (self w) <= 1) /\
  (length (self w) = 1 ->
     exists a v, head (self w) = Some a /\ tail (self w) = Some a /\
                 heap w !! a = Some (mkNode v None None) /\ to_list w = Some [v]).
Proof.
  intros Hw. destruct (reachable_repr w Hw) as (ls & vs & R).
  pose proof (repr_values _ _ _ R) as HV.
  pose proof (repr_nodup _ _ _ R) as Hnd.
  rewrite (repr_head _ _ _ R), (repr_tail _ _ _ R), (repr_length _ _ _ R).
  destruct ls as [|a [|b ls]].
  - split; [split; [simpl; lia | reflexivity] | simpl; lia].
  - split; [split; [simpl; lia | reflexivity]|]. intros _.
    destruct (repr_cell _ _ _ R 0%nat a eq_refl) as (v & Hv & Hc).
    destruct vs as [|v' [|? ?]]; try discriminate. simpl in Hv. injection Hv as ->.
    exists a, v. repeat split; [exact Hc | eapply to_list_repr; eauto].
  - split; [|cbn [List.length]; lia]. split; [|cbn [List.length]; lia].
    intros Heq. exfalso. apply NoDup_cons in Hnd as [Hnotin _].
    apply Hnotin. rewrite last_cons_cons in Heq. simpl in Heq. symmetry in Heq.
    apply last_Some_elem_of in Heq. exact Heq.
Qed.

Lemma head_is_tail_witness :
  (head (self demo_state) = tail (self demo_state) <-> length (self demo_state) <= 1) /\
  (length (self demo_state) = 1 ->
     exists a v, head (self demo_state) = Some a /\ tail (self demo_state) = Some a /\
                 heap demo_state !! a = Some (mkNode v None None) /\
                 to_list demo_state = Some [v]).
Proof. apply (head_is_tail demo_state reachable_demo). Defined.

Lemma same_values_refl h : same_values h h.
Proof. split; [reflexivity|]. eauto. Qed.

Lemma same_values_trans h1 h2 h3 :
  same_values h1 h2 -> same_values h2 h3 -> same_values h1 h3.
Proof.
  intros [L1 V1] [L2 V2]. split; [congruence|].
  intros a n Hn. destruct (V1 a n Hn) as (n' & Hn' & E1).
  destruct (V2 a n' Hn') as (n'' & Hn'' & E2). exists n''. split; [auto | congruence].
Qed.

Lemma same_values_set_next h a x : same_values h (store_set_next a x h).
Proof.
  split; [apply length_store_set_next|].
  intros b n Hn. rewrite lookup_store_set_next, Hn.
  case_decide; eexists; (split; [reflexivity|]); reflexivity.
Qed.

Lemma same_values_set_prev h a x : same_values h (store_set_prev a x h).
Proof.
  split; [apply length_store_set_prev|].
  intros b n Hn. rewrite lookup_store_set_prev, Hn.
  case_decide; eexists; (split; [reflexivity|]); reflexivity.
Qed.

Create HintDb store.
#[local] Hint Resolve same_values_refl same_values_set_next same_values_set_prev : store.

(** X8.  No call changes the value held by a node or removes a node from
    the store, whatever the state: the pops, [get] and iteration leave the
    store with the same nodes and values (only links change), and an append
    adds exactly one node, holding the appended value. *)
Theorem calls_keep_values w c :
  match c with
  | AppendLeft v | AppendRight v =>
      same_values (heap w ++ [Node__init__ v]) (heap (exec c w))
  | _ => same_values (heap w) (heap (exec c w))
  end.
Proof.
  destruct c as [v|v| | |index|fuel]; unfold exec, run.
  - destruct w as [h [hd tl len]]. unfold append_left. mrun. simpl.
    both_case; simpl; eauto using same_values_trans with store.
  - destruct w as [h [hd tl len]]. unfold append_right. mrun. simpl.
    both_case; simpl; eauto using same_values_trans with store.
  - destruct w as [h [hd tl len]]. unfold pop_left. mrun. simpl.
    both_case; simpl; eauto with store.
  - destruct w as [h [hd tl len]]. unfold pop_right. mrun. simpl.
    both_case; simpl; eauto with store.
  - pose proof (get_state index w) as Hs. mrun.
    destruct (get index w) as [[r|e] w']; simpl in *; subst w'; apply same_values_refl.
  - pose proof (iter_state fuel w) as Hs. mrun.
    destruct (__iter__ fuel w) as [[r|e] w']; simpl in *; subst w'; apply same_values_refl.
Qed.

Lemma repr_nil_self w : repr w [] [] -> self w = mkDLL None None 0.
Proof.
  intros R. pose proof (repr_head _ _ _ R) as Hh. pose proof (repr_tail _ _ _ R) as Ht.
  pose proof (repr_length _ _ _ R) as HL. simpl in Hh, Ht, HL.
  destruct (self w) as [hd tl len]. simpl in Hh, Ht, HL. subst. reflexivity.
Qed.

(** X9.  Popping as many times as the list has values empties it:
    [pop_left()] returns the values in the order iteration yields them,
    [pop_right()] returns them in the reverse order, and either way the
    list ends with [head] and [tail] absent and [length] 0. *)
Theorem pops_empty_the_list w :
  reachable w ->
  exists vs wl wr,
    to_list w = Some vs /\
    pops_left (List.length vs) w = (Return (Some <$> vs), wl) /\
    self wl = mkDLL None None 0 /\
    pops_right (List.length vs) w = (Return (Some <$> rev vs), wr) /\
    self wr = mkDLL None None 0.
Proof.
  intros Hw. destruct (reachable_repr w Hw) as (ls & vs & R).
  pose proof (repr_values _ _ _ R) as HV.
  destruct (pops_left_repr (List.length vs) w ls vs R) as (wl & Hl & Rl).
  destruct (pops_right_repr (List.length vs) w ls vs R) as (wr & Hr & Rr).
  exists vs, wl, wr. split; [eapply to_list_repr; eauto|].
  rewrite firstn_all, Nat.sub_diag, app_nil_r in Hl.
  rewrite (take_ge (rev vs)) in Hr by (rewrite length_rev; lia).
  rewrite Nat.sub_diag, app_nil_r in Hr.
  rewrite !drop_ge in Rl by lia.
  rewrite <- HV, Nat.sub_diag, !take_0 in Rr.
  auto using repr_nil_self.
Qed.

Lemma pops_empty_the_list_witness :
  exists vs wl wr,
    to_list demo_state = Some vs /\
    pops_left (List.length vs) demo_state = (Return (Some <$> vs), wl) /\
    self wl = mkDLL None None 0 /\
    pops_right (List.length vs) demo_state = (Return (Some <$> rev vs), wr) /\
    self wr = mkDLL None None 0.
Proof. apply (pops_empty_the_list demo_state reachable_demo). Defined.

(** X10.  Pops on the side opposite to the appends take the older values
    first.  With [vs] the values of a reachable list: after appending [xs]
    on the left, [n] pops on the right return the first [n] values of [vs]
    reversed followed by [xs]; after appending [xs] on the right, [n] pops
    on the left return the first [n] values of [vs] followed by [xs]; pops
    beyond that return [None]. *)
Theorem opposite_side_order w xs n :
  reachable w ->
  exists vs,
    to_list w = Some vs /\
    fst ((appends_left xs;; pops_right n) w) =
      Return ((Some <$> take n (rev vs ++ xs)) ++
              replicate (n - (List.length vs + List.length xs)) None) /\
    fst ((appends_right xs;; pops_left n) w) =
      Return ((Some <$> take n (vs ++ xs)) ++
              replicate (n - (List.length vs + List.length xs)) None).
Proof.
  intros Hw. destruct (reachable_repr w Hw) as (ls & vs & R).
  destruct (appends_left_repr xs w ls vs R) as (wl & ll & Hl & Rl).
  destruct (appends_right_repr xs w ls vs R) as (wr & lr & Hr & Rr).
  destruct (pops_right_repr n _ _ _ Rl) as (wl' & Hpl & _).
  destruct (pops_left_repr n _ _ _ Rr) as (wr' & Hpr & _).
  exists vs. split; [eapply to_list_repr; eauto|]. split.
  - mrun. rewrite Hl, Hpl. simpl.
    rewrite rev_app_distr, rev_involutive, length_app, length_rev.
    do 3 f_equal. lia.
  - mrun. rewrite Hr, Hpr. simpl. rewrite length_app. reflexivity.
Qed.

Lemma opposite_side_order_witness :
  exists vs,
    to_list demo_state = Some vs /\
    fst ((appends_left [7; 8];; pops_right 6) demo_state) =
      Return ((Some <$> take 6 (rev vs ++ [7; 8])) ++
              replicate (6 - (List.length vs + List.length [7; 8])) None) /\
    fst ((appends_right [7; 8];; pops_left 6) demo_state) =
      Return ((Some <$> take 6 (vs ++ [7; 8])) ++
              replicate (6 - (List.length vs + List.length [7; 8])) None).
Proof. apply (opposite_side_order demo_state [7; 8] 6 reachable_demo). Defined.

Lemma run_refines w ls vs c :
  repr w ls vs ->
  exists w' ls', run c w = (fst (Model.run c vs), w') /\
                 repr w' ls' (snd (Model.run c vs)).
Proof.
  intros R. unfold run. destruct c as [v|v| | |index|fuel]; simpl.
  - destruct (append_left_repr w ls vs v R) as (w' & Hrun & R').
    exists w'. eexists. split; [mrun; rewrite Hrun; reflexivity | exact R'].
  - destruct (append_right_repr w ls vs v R) as (w' & Hrun & R').
    exists w'. eexists. split; [mrun; rewrite Hrun; reflexivity | exact R'].
  - destruct (pop_left_repr w ls vs R) as (w' & Hrun & R').
    exists w'. eexists. split; [mrun; rewrite Hrun; reflexivity | exact R'].
  - destruct (pop_right_repr w ls vs R) as (w' & Hrun & R').
    exists w'. eexists. split; [mrun; rewrite Hrun; reflexivity | exact R'].
  - exists w, ls. split; [|exact R]. mrun.
    pose proof (repr_length _ _ _ R) as HL. pose proof (repr_values _ _ _ R) as HV.
    destruct (decide (0 <= index < length (self w))) as [Hi|Hi].
    + destruct (get_repr w ls vs index R Hi) as (a & v & _ & Hv & _ & _ & _ & _ & _ & Hg).
      rewrite Hg, Hv. replace (index <? 0) with false by (symmetry; apply Z.ltb_ge; lia).
      reflexivity.
    + rewrite get_out_of_range by lia.
      destruct (index <? 0) eqn:E; [reflexivity|].
      apply Z.ltb_ge in E. rewrite lookup_ge_None_2 by lia. reflexivity.
  - exists w, ls. split; [|exact R]. mrun.
    rewrite (iter_full w ls vs fuel R). reflexivity.
Qed.

Lemma observe_repr cs : forall w ls vs,
  repr w ls vs -> observe cs w = Model.observe cs vs.
Proof.
  induction cs as [|c cs IH]; intros w ls vs R; [reflexivity|].
  destruct (run_refines w ls vs c R) as (w' & ls' & Hrun & R').
  simpl. rewrite Hrun. destruct (Model.run c vs) as [r vs']. simpl in *.
  f_equal. eapply IH; eauto.
Qed.

(** X11.  Seen through its calls, the list is the plain sequence of its
    values: for every sequence of calls made on a fresh list, each call
    has the outcome the same call has on the sequence, where the appends
    add at the beginning or the end, the pops take the first or the last
    value or return [None], [get] reads a position or raises [IndexError],
    and iteration yields the values in order. *)
Theorem refines_sequence (cs : list call) :
  observe cs __init__ = Model.observe cs [].
Proof. apply (observe_repr cs __init__ [] []). apply repr_init. Qed.

End DLLMore.

(** * Further properties of linked_list.py *)

Lemma to_list_forget w : LL.to_list (forget w) = DLL.to_list w.
Proof.
  unfold LL.to_list, DLL.to_list. rewrite agree_iter.
  change (LL.heap (forget w)) with (DLL.heap w).
  destruct (DLL.__iter__ _ w) as [[r|e] w']; reflexivity.
Qed.

(** X12.  In every state reached by the calls of [linked_list.py], [head]
    is absent exactly when [tail] is, and exactly when the list holds no
    value; and no call raises, so none of the asserts fails. *)
Theorem untracked_safe u :
  LL.reachable u ->
  (LL.head (LL.self u) = None <-> LL.tail (LL.self u) = None) /\
  (LL.head (LL.self u) = None <-> LL.to_list u = Some []) /\
  (forall c, exists r, fst (LL.run c u) = Return r).
Proof.
  intros Hu. destruct (reachable_forget u Hu) as (w & Hw & ->).
  destruct (DLLProps.reachable_repr w Hw) as (ls & vs & R).
  pose proof (DLL.repr_values _ _ _ R) as HV.
  rewrite to_list_forget, (DLLMore.to_list_repr w ls vs R). simpl.
  rewrite (DLL.repr_head _ _ _ R), (DLL.repr_tail _ _ _ R).
  split; [|split].
  - destruct ls as [|a ls']; [tauto|].
    split; [discriminate|]. intros Hl. apply last_None in Hl. discriminate.
  - destruct ls as [|a ls']; destruct vs; try discriminate.
    + tauto.
    + split; discriminate.
  - intros c. rewrite agree_run. simpl.
    destruct (DLLMore.run_refines w ls vs (tracked c) R) as (w' & ls' & Hrun & _).
    rewrite Hrun. destruct c; simpl; eauto.
Qed.

Lemma untracked_safe_witness :
  (LL.head (LL.self (forget DLL.demo_state)) = None <->
   LL.tail (LL.self (forget DLL.demo_state)) = None) /\
  (LL.head (LL.self (forget DLL.demo_state)) = None <->
   LL.to_list (forget DLL.demo_state) = Some []) /\
  (forall c, exists r, fst (LL.run c (forget DLL.demo_state)) = Return r).
Proof.
  apply (untracked_safe (forget DLL.demo_state)).
  change (LL.reachable
    (LL.run_calls [LL.AppendRight 1; LL.AppendRight 2; LL.AppendRight 3;
                   LL.AppendLeft 0; LL.AppendLeft (-1)] LL.__init__)).
  repeat constructor.
Defined.

(** X13.  The list of [linked_list.py] too is the plain sequence of its
    values: for every sequence of its calls made on a fresh list, each
    call has the outcome the same call has on the sequence. *)
Theorem untracked_refines_sequence (cs : list LL.call) :
  LL.observe cs LL.__init__ = Model.observe (tracked <$> cs) [].
Proof.
  change LL.__init__ with (forget DLL.__init__).
  rewrite observe_forget.
  apply (DLLMore.observe_repr _ DLL.__init__ [] []). apply DLLProps.repr_init.
Qed.
